(** * peng_ui: the text field's line wrapping and cursor arithmetic

    A shallow embedding of [peng_ui/elements/text_field.py]: the classes
    [Cursor], [Line] and the editing part of [TextField], followed by the
    properties of wrapping, offset conversion, line splitting, cursor
    movement and scrolling.

    Python integers are unbounded, so every index is a [Z].  A Python [str]
    is a [string]; [len] counts its characters.  Methods that mutate [self]
    become functions returning the new object; a method that can raise
    returns in the [exc] monad. *)

From Stdlib Require Import ZArith List String Ascii Bool Lia.
Import ListNotations.

Local Open Scope string_scope.
Local Open Scope Z_scope.

(** ** Python primitives used by the module *)

(** The exceptions the modelled code can raise. *)
Inductive error : Type :=
| IndexError
| ValueError
| ZeroDivisionError.

Inductive exc (A : Type) : Type :=
| Ok (a : A)
| Raise (e : error).

Arguments Ok {A} a.
Arguments Raise {A} e.

Definition bind {A B : Type} (m : exc A) (k : A -> exc B) : exc B :=
  match m with
  | Ok a => k a
  | Raise e => Raise e
  end.

Notation "x <- m ;; k" := (bind m (fun x => k))
  (at level 61, m at next level, right associativity).

(** [len(s)] and [len(l)]. *)
Definition len (s : string) : Z := Z.of_nat (String.length s).
Definition llen {A : Type} (l : list A) : Z := Z.of_nat (List.length l).

(** Truthiness of a string: [if s:] holds exactly for the non-empty ones. *)
Definition truthy (s : string) : bool :=
  match s with
  | EmptyString => false
  | String _ _ => true
  end.

(** A slice bound [k] on a sequence of length [n]: negative bounds count
    from the end, and the result is clamped into [0..n]. *)
Definition slice_bound (n k : Z) : nat :=
  Z.to_nat (if k <? 0 then Z.max 0 (n + k) else Z.min k n).

(** [l[:k]] and [l[k:]] on lists. *)
Definition list_upto {A : Type} (l : list A) (k : Z) : list A :=
  firstn (slice_bound (llen l) k) l.
Definition list_from {A : Type} (l : list A) (k : Z) : list A :=
  skipn (slice_bound (llen l) k) l.

Fixpoint str_take (n : nat) (s : string) : string :=
  match n, s with
  | S n', String c s' => String c (str_take n' s')
  | _, _ => EmptyString
  end.

Fixpoint str_drop (n : nat) (s : string) : string :=
  match n, s with
  | S n', String _ s' => str_drop n' s'
  | _, _ => s
  end.

(** [s[:k]] and [s[k:]] on strings. *)
Definition str_upto (s : string) (k : Z) : string :=
  str_take (slice_bound (len s) k) s.
Definition str_from (s : string) (k : Z) : string :=
  str_drop (slice_bound (len s) k) s.

(** [l[i]]: indices [-n..n-1] are accepted, anything else raises. *)
Definition subscript {A : Type} (l : list A) (i : Z) : exc A :=
  let n := llen l in
  let j := if i <? 0 then n + i else i in
  if (0 <=? j) && (j <? n) then
    match nth_error l (Z.to_nat j) with
    | Some a => Ok a
    | None => Raise IndexError
    end
  else Raise IndexError.

Fixpoint replace_nth {A : Type} (n : nat) (v : A) (l : list A) : list A :=
  match l, n with
  | [], _ => []
  | _ :: t, O => v :: t
  | h :: t, S n' => h :: replace_nth n' v t
  end.

(** [l[i] = v], with the same index rule as [subscript]. *)
Definition assign {A : Type} (l : list A) (i : Z) (v : A) : exc (list A) :=
  let n := llen l in
  let j := if i <? 0 then n + i else i in
  if (0 <=? j) && (j <? n) then Ok (replace_nth (Z.to_nat j) v l)
  else Raise IndexError.

(** [l.insert(i, v)]: never raises, the position is a clamped slice bound. *)
Definition list_insert {A : Type} (l : list A) (i : Z) (v : A) : list A :=
  let k := slice_bound (llen l) i in
  (firstn k l ++ v :: skipn k l)%list.

Definition is_space (c : ascii) : bool := Ascii.eqb c " "%char.

(** [s.split(' ')]: cut at every single space; the result is never empty
    and keeps the empty words that adjacent spaces delimit. *)
Fixpoint split_space (s : string) : list string :=
  match s with
  | EmptyString => [""]
  | String c s' =>
      if is_space c then "" :: split_space s'
      else match split_space s' with
           | [] => [String c ""]
           | w :: ws => String c w :: ws
           end
  end.

(** [sep.join(l)]. *)
Definition join (sep : string) (l : list string) : string :=
  String.concat sep l.

(** Lowest and highest position of a space in a string, if any. *)
Fixpoint first_space (s : string) : option nat :=
  match s with
  | EmptyString => None
  | String c s' =>
      if is_space c then Some O
      else option_map S (first_space s')
  end.

Fixpoint last_space (s : string) : option nat :=
  match s with
  | EmptyString => None
  | String c s' =>
      match last_space s' with
      | Some i => Some (S i)
      | None => if is_space c then Some O else None
      end
  end.

(** [s.find(' ', start)]. *)
Definition find_space (s : string) (start : Z) : Z :=
  let k := slice_bound (len s) start in
  match first_space (str_drop k s) with
  | Some i => Z.of_nat (k + i)
  | None => -1
  end.

(** [s.rfind(' ', 0, stop)]. *)
Definition rfind_space (s : string) (stop : Z) : Z :=
  match last_space (str_take (slice_bound (len s) stop) s) with
  | Some i => Z.of_nat i
  | None => -1
  end.

(** [sum(...)] over integers. *)
Definition zsum (l : list Z) : Z := fold_left Z.add l 0.

(** The font is an object of pygame; the module only calls
    [font.size(text)[0]], the rendered width of [text] in pixels. *)
Definition Font : Type := string -> Z.

(** A fixed-pitch font one pixel wide per character. *)
Definition mono_font : Font := len.

(** ** class Cursor *)

Record Cursor : Type := mkCursor {
  line_index : Z;
  paragraph_index : Z;
  char_index : Z
}.

(** ** class Line *)

Record Line : Type := mkLine { paragraphs : list string }.

(** [Line(text)]. *)
Definition new_Line (text : string) : Line := mkLine [text].

Module Line.

Definition get_line_char_index (self : Line) (paragraph_index char_index : Z) : Z :=
  zsum (map (fun p => len p + 1) (list_upto (paragraphs self) paragraph_index))
  + char_index.

(** The loop of [get_paragraph_char_index]: [i] is the position of the
    first paragraph of [ps], [total] the number of paragraphs of the line. *)
Fixpoint scan_paragraphs (ps : list string) (i cum_char_sum line_char_index total : Z)
  : Z * Z :=
  match ps with
  | [] => (total - 1, 0)
  | p :: ps' =>
      let p_chars := len p + 1 in
      if line_char_index <? cum_char_sum + p_chars
      then (i, line_char_index - cum_char_sum)
      else scan_paragraphs ps' (i + 1) (cum_char_sum + p_chars) line_char_index total
  end.

Definition get_paragraph_char_index (self : Line) (line_char_index : Z) : Z * Z :=
  scan_paragraphs (paragraphs self) 0 0 line_char_index (llen (paragraphs self)).

(** The two local variables of the loop of [auto_wrap]. *)
Record wrap_state : Type := mkWrap {
  current_line : string;
  new_paragraphs : list string
}.

Definition wrap_step (font : Font) (max_width : Z) (st : wrap_state) (word : string)
  : wrap_state :=
  let test_line :=
    current_line st ++ (if truthy (current_line st) then " " else "") ++ word in
  let test_width := font test_line in
  if test_width <=? max_width then
    mkWrap test_line (new_paragraphs st)
  else if truthy (current_line st) then
    mkWrap word (new_paragraphs st ++ [current_line st])%list
  else
    mkWrap "" (new_paragraphs st ++ [word])%list.

(** The paragraphs [auto_wrap] computes from a list of words. *)
Definition wrap_words (font : Font) (max_width : Z) (words : list string)
  : list string :=
  let st := fold_left (wrap_step font max_width) words (mkWrap "" []) in
  if truthy (current_line st)
  then (new_paragraphs st ++ [current_line st])%list
  else new_paragraphs st.

Definition auto_wrap (self : Line) (font : Font) (max_width : Z) : Line :=
  let words := split_space (join " " (paragraphs self)) in
  mkLine (wrap_words font max_width words).

(** Returns the wrapped line and the new cursor. *)
Definition auto_wrap_and_norm_cursor (self : Line) (font : Font) (max_width : Z)
    (cursor : Cursor) : Line * Cursor :=
  let line_char_index :=
    get_line_char_index self (paragraph_index cursor) (char_index cursor) in
  let self' := auto_wrap self font max_width in
  let '(p, c) := get_paragraph_char_index self' line_char_index in
  (self', mkCursor (line_index cursor) p c).

Definition num_paragraphs (self : Line) : Z := llen (paragraphs self).

Definition num_chars (self : Line) : Z :=
  zsum (map len (paragraphs self)) + llen (paragraphs self) - 1.

Definition split (self : Line) (paragraph_index split_index : Z)
  : exc (Line * Line) :=
  let left_paragraphs := list_upto (paragraphs self) paragraph_index in
  let right_paragraphs := list_from (paragraphs self) (paragraph_index + 1) in
  middle_paragraph <- subscript (paragraphs self) paragraph_index ;;
  let left_part := str_upto middle_paragraph split_index in
  let right_part := str_from middle_paragraph split_index in
  let left_paragraphs := (left_paragraphs ++ [left_part])%list in
  let right_paragraphs := list_insert right_paragraphs 0 right_part in
  Ok (new_Line (join "" left_paragraphs), new_Line (join "" right_paragraphs)).

End Line.

(** ** class TextField

    The attributes the editing methods read or write.  [rect_width] and
    [rect_height] are [rect.width] and [rect.height]. *)

Record TextField : Type := mkTextField {
  text : list Line;
  cursor : Cursor;
  selection_start : option Cursor;
  scroll_offset : Z;
  rect_width : Z;
  rect_height : Z;
  padding : Z;
  line_height : Z;
  font : Font
}.

Definition with_text (self : TextField) (t : list Line) : TextField :=
  mkTextField t (cursor self) (selection_start self) (scroll_offset self)
    (rect_width self) (rect_height self) (padding self) (line_height self)
    (font self).

Definition with_cursor (self : TextField) (c : Cursor) : TextField :=
  mkTextField (text self) c (selection_start self) (scroll_offset self)
    (rect_width self) (rect_height self) (padding self) (line_height self)
    (font self).

Definition with_selection_start (self : TextField) (c : option Cursor) : TextField :=
  mkTextField (text self) (cursor self) c (scroll_offset self)
    (rect_width self) (rect_height self) (padding self) (line_height self)
    (font self).

Definition with_scroll_offset (self : TextField) (o : Z) : TextField :=
  mkTextField (text self) (cursor self) (selection_start self) o
    (rect_width self) (rect_height self) (padding self) (line_height self)
    (font self).

Module TextField.

(** The loop of [_wrap_text] from position [i] on: the line the cursor is
    in is wrapped together with the cursor, the others alone. *)
Fixpoint wrap_lines (font : Font) (max_width : Z) (lines : list Line) (i : Z)
    (cursor : Cursor) : list Line * Cursor :=
  match lines with
  | [] => ([], cursor)
  | line :: rest =>
      if i =? line_index cursor then
        let '(line', cursor') :=
          Line.auto_wrap_and_norm_cursor line font max_width cursor in
        let '(rest', cursor'') := wrap_lines font max_width rest (i + 1) cursor' in
        (line' :: rest', cursor'')
      else
        let '(rest', cursor') := wrap_lines font max_width rest (i + 1) cursor in
        (Line.auto_wrap line font max_width :: rest', cursor')
  end.

Definition _wrap_text (self : TextField) : TextField :=
  let max_width := rect_width self - 2 * padding self in
  let '(lines, c) := wrap_lines (font self) max_width (text self) 0 (cursor self) in
  with_cursor (with_text self lines) c.

Definition _get_view_line_pos (self : TextField) (cursor : Cursor) : Z :=
  zsum (map Line.num_paragraphs (list_upto (text self) (line_index cursor)))
  + paragraph_index cursor.

Definition _get_num_paragraphs (self : TextField) : Z :=
  zsum (map Line.num_paragraphs (text self)).

Definition _get_line (self : TextField) (cursor : Cursor) : exc Line :=
  subscript (text self) (line_index cursor).

(** [_get_paragraph] on a pair [(line_index, paragraph_index)]; on a
    [Cursor] it reads the same two components. *)
Definition _get_paragraph_at (self : TextField) (li pi : Z) : exc string :=
  line <- subscript (text self) li ;;
  subscript (paragraphs line) pi.

Definition _get_paragraph (self : TextField) (cursor : Cursor) : exc string :=
  _get_paragraph_at self (line_index cursor) (paragraph_index cursor).

Definition _create_newline (self : TextField) : exc TextField :=
  let line_index := line_index (cursor self) in
  orig_line <- subscript (text self) line_index ;;
  lr <- Line.split orig_line (paragraph_index (cursor self))
          (char_index (cursor self)) ;;
  let '(left_line, right_line) := lr in
  text1 <- assign (text self) line_index left_line ;;
  Ok (with_text self (list_insert text1 (line_index + 1) right_line)).

Definition _next_char_index (paragraph : string) (char_index direction : Z)
    (jump_words : bool) : exc Z :=
  if negb jump_words then Ok (char_index + direction)
  else if direction >? 0 then
    if char_index =? len paragraph then Ok (len paragraph + 1)
    else
      let new_index := find_space paragraph (char_index + 1) in
      if new_index =? -1 then Ok (len paragraph) else Ok new_index
  else if direction <? 0 then
    if char_index =? 0 then Ok (-1)
    else
      let new_index := rfind_space paragraph char_index in
      if new_index =? -1 then Ok 0 else Ok new_index
  else Raise ValueError.

(** [_move_cursor] updates the cursor object it is given; the result is
    the value of that object afterwards. *)
Definition _move_cursor (self : TextField) (cursor : Cursor) (direction : Z)
    (jump_words : bool) : exc Cursor :=
  let new_line_index := line_index cursor in
  let new_paragraph_index := paragraph_index cursor in
  let new_char_index := char_index cursor in
  if negb jump_words then
    paragraph <- _get_paragraph self cursor ;;
    new_char_index <-
      _next_char_index paragraph (char_index cursor) direction jump_words ;;
    if (new_char_index <? 0) || (new_char_index >? len paragraph) then
      let wrap_back := new_char_index <? 0 in
      let wrap_forward := new_char_index >? len paragraph in
      let new_paragraph_index := paragraph_index cursor + direction in
      current_line <- _get_line self cursor ;;
      let finish (new_line_index new_paragraph_index : Z) : exc Cursor :=
        let new_char_index := if wrap_forward then 0 else new_char_index in
        new_char_index <-
          (if wrap_back then
             p <- _get_paragraph_at self new_line_index new_paragraph_index ;;
             Ok (len p)
           else Ok new_char_index) ;;
        Ok (mkCursor new_line_index new_paragraph_index new_char_index) in
      if (new_paragraph_index <? 0)
         || (new_paragraph_index >=? Line.num_paragraphs current_line) then
        let new_line_index := line_index cursor + direction in
        if (new_line_index <? 0) || (new_line_index >=? llen (text self)) then
          Ok cursor
        else
          new_paragraph_index <-
            (if new_paragraph_index <? 0 then
               l <- subscript (text self) new_line_index ;;
               Ok (Line.num_paragraphs l - 1)
             else Ok new_paragraph_index) ;;
          let new_paragraph_index :=
            if new_paragraph_index >=? Line.num_paragraphs current_line
            then 0 else new_paragraph_index in
          finish new_line_index new_paragraph_index
      else finish new_line_index new_paragraph_index
    else
      Ok (mkCursor new_line_index new_paragraph_index new_char_index)
  else
    Ok (mkCursor new_line_index new_paragraph_index new_char_index).

(** [max(1, int(visible_height / self.line_height))].  The quotient of the
    two integers is truncated towards zero, which is what [int] does to
    the float quotient for pixel-sized operands. *)
Definition visible_lines (self : TextField) : exc Z :=
  let visible_height := rect_height self - 2 * padding self in
  if line_height self =? 0 then Raise ZeroDivisionError
  else Ok (Z.max 1 (Z.quot visible_height (line_height self))).

Definition _clamp_scroll (self : TextField) : exc TextField :=
  visible_lines <- visible_lines self ;;
  let max_scroll := Z.max 0 (_get_num_paragraphs self - visible_lines) in
  Ok (with_scroll_offset self (Z.max 0 (Z.min (scroll_offset self) max_scroll))).

Definition _update_scroll (self : TextField) : exc TextField :=
  visible_lines <- visible_lines self ;;
  let cursor_line := _get_view_line_pos self (cursor self) in
  let self :=
    if cursor_line >=? scroll_offset self + visible_lines
    then with_scroll_offset self (cursor_line - visible_lines + 1)
    else self in
  let self :=
    if cursor_line <? scroll_offset self
    then with_scroll_offset self cursor_line
    else self in
  _clamp_scroll self.

Definition _move_my_cursor (self : TextField) (direction : Z) (jump_words : bool)
  : exc TextField :=
  c <- _move_cursor self (cursor self) direction jump_words ;;
  _update_scroll (with_cursor self c).

Definition _insert_text (self : TextField) (char : string) : exc TextField :=
  paragraph <- _get_paragraph self (cursor self) ;;
  let ci := char_index (cursor self) in
  let paragraph := str_upto paragraph ci ++ char ++ str_from paragraph ci in
  line <- subscript (text self) (line_index (cursor self)) ;;
  ps <- assign (paragraphs line) (paragraph_index (cursor self)) paragraph ;;
  text1 <- assign (text self) (line_index (cursor self)) (mkLine ps) ;;
  let self := with_text self text1 in
  let self := _wrap_text self in
  let c := cursor self in
  let self :=
    with_cursor self
      (mkCursor (line_index c) (paragraph_index c) (char_index c + len char)) in
  let self := with_selection_start self None in
  _update_scroll self.

Definition end_cursor (self : TextField) : Cursor :=
  match text self with
  | [] => mkCursor 0 0 0
  | first_line :: rest =>
      let line := last rest first_line in
      let line_index := llen (text self) - 1 in
      match paragraphs line with
      | [] => mkCursor line_index 0 0
      | first_paragraph :: more =>
          let paragraph := last more first_paragraph in
          let paragraph_index := llen (paragraphs line) - 1 in
          mkCursor line_index paragraph_index (len paragraph)
      end
  end.

(** The loop of [_get_line_and_paragraph_by_y]; [None] is the result of
    falling out of it. *)
Fixpoint scan_lines (lines : list Line) (line_index start_line_index view_line_index : Z)
  : option (Z * Z) :=
  match lines with
  | [] => None
  | line :: rest =>
      let end_line_index := start_line_index + Line.num_paragraphs line in
      if view_line_index <? end_line_index
      then Some (line_index, view_line_index - start_line_index)
      else scan_lines rest (line_index + 1) end_line_index view_line_index
  end.

(** [ypos // self.line_height] is the floor quotient, which is [Z.div]. *)
Definition _get_line_and_paragraph_by_y (self : TextField) (ypos : Z)
  : exc (option (Z * Z)) :=
  if line_height self =? 0 then Raise ZeroDivisionError
  else
    let view_line_index := scroll_offset self + ypos / line_height self in
    Ok (scan_lines (text self) 0 0 view_line_index).

(** The loop over [range(len(paragraph) + 1)] of [_cursor_from_mouse_pos]:
    the first count of characters whose text is wider than [rel_x]. *)
Fixpoint first_wider (font : Font) (paragraph : string) (rel_x : Z)
    (counts : list nat) : option Z :=
  match counts with
  | [] => None
  | num_chars :: rest =>
      let text := str_upto paragraph (Z.of_nat num_chars) in
      let paragraph_width := font text in
      if paragraph_width >? rel_x then Some (Z.of_nat num_chars)
      else first_wider font paragraph rel_x rest
  end.

(** [rect_x] and [rect_y] are [rect.x] and [rect.y]; [collidepoint] is the
    method of that name of pygame's [Rect]. *)
Definition _cursor_from_mouse_pos (self : TextField) (rect_x rect_y : Z)
    (collidepoint : Z -> Z -> bool) (mouse_pos : Z * Z) : exc Cursor :=
  if negb (collidepoint (fst mouse_pos) (snd mouse_pos)) then Ok (end_cursor self)
  else
    match text self with
    | [] => Ok (mkCursor 0 0 0)
    | _ :: _ =>
        let rel_x := fst mouse_pos - rect_x - padding self in
        let rel_y := snd mouse_pos - rect_y - padding self in
        line_par <- _get_line_and_paragraph_by_y self rel_y ;;
        match line_par with
        | None => Ok (end_cursor self)
        | Some (line_index, paragraph_index) =>
            line <- subscript (text self) line_index ;;
            paragraph <- subscript (paragraphs line) paragraph_index ;;
            match first_wider (font self) paragraph rel_x
                    (seq 0 (String.length paragraph + 1)) with
            | Some num_chars => Ok (mkCursor line_index paragraph_index num_chars)
            | None => Ok (mkCursor line_index paragraph_index (len paragraph))
            end
        end
    end.

End TextField.

(** ** Sample objects *)

(** A field 13 pixels wide with the padding 5 of the constructor: with
    [mono_font] exactly three characters fit.  One row is visible. *)
Definition narrow_field (lines : list Line) (c : Cursor) : TextField :=
  mkTextField lines c None 0 13 20 5 10 mono_font.

(** The result of an operation seen through an attribute. *)
Definition attr {A B : Type} (f : A -> B) (r : exc A) : exc B :=
  x <- r ;; Ok (f x).

(** A string without a space: a single word. *)
Definition single_word (s : string) : Prop := first_space s = None.

(** The paragraphs the loop of [auto_wrap] still appends, as a function
    of the buffer [current_line] and the words left to read. *)
Fixpoint emitted (font : Font) (max_width : Z) (current_line : string)
    (words : list string) : list string :=
  match words with
  | [] => if truthy current_line then [current_line] else []
  | word :: rest =>
      let test_line :=
        current_line ++ (if truthy current_line then " " else "") ++ word in
      if font test_line <=? max_width then emitted font max_width test_line rest
      else if truthy current_line
           then current_line :: emitted font max_width word rest
           else word :: emitted font max_width "" rest
  end.

(** What a paragraph of the result may be: narrow enough, or one word. *)
Definition fits_or_single (font : Font) (max_width : Z) (p : string) : Prop :=
  font p <= max_width \/ single_word p.

(** The font never renders a text narrower when more text is appended. *)
Definition monotone_font (font : Font) : Prop :=
  forall s t : string, font s <= font (s ++ t).

(** A width function that is not monotone: the text "a" followed by a
    space is reported 10 wide, every other text one pixel per character. *)
Definition ragged_font : Font :=
  fun s => if String.eqb s "a " then 10 else len s.

(** The number of flattened offsets of a line: every paragraph counts its
    characters and one virtual character more. *)
Definition flat_len (l : Line) : Z :=
  zsum (map (fun p => len p + 1) (paragraphs l)).

(** The words of a text that are not empty. *)
Definition real_words (s : string) : list string :=
  filter truthy (split_space s).

(** The raw text of a line, as [auto_wrap] joins it. *)
Definition line_text (l : Line) : string := join " " (paragraphs l).

Definition starts_with_space (s : string) : bool :=
  match s with
  | EmptyString => false
  | String c _ => is_space c
  end.

(** [(line_index, paragraph_index)] names a paragraph of the document. *)
Definition on_paragraph (self : TextField) (c : Cursor) : Prop :=
  exists l,
    0 <= line_index c /\ nth_error (text self) (Z.to_nat (line_index c)) = Some l /\
    0 <= paragraph_index c < Line.num_paragraphs l.

(** Character [i] of a string, if there is one. *)
Fixpoint char_at (s : string) (i : nat) : option ascii :=
  match s, i with
  | EmptyString, _ => None
  | String c _, O => Some c
  | String _ s', S i' => char_at s' i'
  end.

(** The scroll offsets [_clamp_scroll] accepts. *)
Definition scroll_in_range (self : TextField) (visible_lines : Z) : Prop :=
  0 <= scroll_offset self
  <= Z.max 0 (TextField._get_num_paragraphs self - visible_lines).

(** [end_cursor] stands at the end of paragraph [p], the last of line [l],
    the last of the document. *)
Definition end_cursor_of (self : TextField) (l : Line) (p : string) : Prop :=
  TextField.end_cursor self
  = mkCursor (llen (text self) - 1) (Line.num_paragraphs l - 1) (len p).

(** The structural invariants of the data model. *)
Definition valid_line (l : Line) : Prop := paragraphs l <> [].

Definition valid_document (self : TextField) : Prop :=
  Forall valid_line (text self).

Definition valid_cursor (self : TextField) (c : Cursor) : Prop :=
  exists l p,
    0 <= line_index c /\ nth_error (text self) (Z.to_nat (line_index c)) = Some l /\
    0 <= paragraph_index c /\
    nth_error (paragraphs l) (Z.to_nat (paragraph_index c)) = Some p /\
    0 <= char_index c <= len p.

(** The cursor's row is one of the rows shown. *)
Definition cursor_visible (self : TextField) (visible_lines : Z) : Prop :=
  let r := TextField._get_view_line_pos self (cursor self) in
  scroll_offset self <= r < scroll_offset self + visible_lines.

(** * Properties *)

(** ** Sums, slices and strings *)

Lemma fold_add_shift (l : list Z) (a : Z) :
  fold_left Z.add l a = a + fold_left Z.add l 0.
Proof.
  revert a; induction l as [|x l IH]; intros a; simpl.
  - lia.
  - rewrite (IH (a + x)), (IH x). lia.
Qed.

Lemma zsum_cons (x : Z) (l : list Z) : zsum (x :: l) = x + zsum l.
Proof. unfold zsum; simpl. apply fold_add_shift. Qed.

Lemma zsum_nil : zsum [] = 0.
Proof. reflexivity. Qed.

Lemma len_nonneg (s : string) : 0 <= len s.
Proof. unfold len; lia. Qed.

Lemma slice_bound_in_range (n k : Z) :
  0 <= k <= n -> slice_bound n k = Z.to_nat k.
Proof.
  intros H. unfold slice_bound.
  destruct (k <? 0) eqn:E; [apply Z.ltb_lt in E; lia|].
  f_equal; lia.
Qed.

Lemma str_app_assoc (a b c : string) : (a ++ b) ++ c = a ++ (b ++ c).
Proof. induction a as [|x a IH]; simpl; congruence. Qed.

Lemma truthy_false (s : string) : truthy s = false -> s = "".
Proof. destruct s; simpl; congruence. Qed.


(** ** Offsets: [get_line_char_index] and [get_paragraph_char_index] *)

Lemma scan_paragraphs_hit (k : nat) :
  forall (ps : list string) (p : string) (i cum ci total : Z),
    nth_error ps k = Some p ->
    0 <= ci <= len p ->
    Line.scan_paragraphs ps i cum
      (cum + zsum (map (fun q => len q + 1) (firstn k ps)) + ci) total
    = (i + Z.of_nat k, ci).
Proof.
  induction k as [|k IH]; intros ps p i cum ci total Hnth Hci.
  - destruct ps as [|q ps]; simpl in Hnth; [discriminate|].
    injection Hnth as ->. simpl. rewrite ?zsum_nil.
    destruct (_ <? _) eqn:E.
    + f_equal; lia.
    + apply Z.ltb_ge in E. lia.
  - destruct ps as [|q ps]; simpl in Hnth; [discriminate|].
    simpl firstn. simpl map. rewrite zsum_cons. simpl Line.scan_paragraphs.
    pose proof (len_nonneg q) as Hq.
    assert (Hs : 0 <= zsum (map (fun q0 => len q0 + 1) (firstn k ps))).
    { clear. induction (firstn k ps) as [|x l IHl]; simpl.
      - rewrite ?zsum_nil; lia.
      - rewrite zsum_cons. pose proof (len_nonneg x). lia. }
    destruct (_ <? _) eqn:E; [apply Z.ltb_lt in E; lia|].
    replace (cum + (len q + 1 + zsum (map (fun q0 => len q0 + 1) (firstn k ps))) + ci)
      with ((cum + (len q + 1)) + zsum (map (fun q0 => len q0 + 1) (firstn k ps)) + ci)
      by lia.
    rewrite (IH ps p (i + 1) (cum + (len q + 1)) ci total Hnth Hci).
    f_equal; lia.
Qed.

(** C2.  In a line with at least one paragraph, for a paragraph index in
    range and a character index between 0 and the length of that paragraph
    (both ends included), flattening the pair with [get_line_char_index]
    and converting back with [get_paragraph_char_index] returns the pair. *)
Theorem offset_round_trip (self : Line) (paragraph_index char_index : Z) :
  paragraphs self <> [] ->
  0 <= paragraph_index < llen (paragraphs self) ->
  0 <= char_index <= len (nth (Z.to_nat paragraph_index) (paragraphs self) "") ->
  Line.get_paragraph_char_index self
    (Line.get_line_char_index self paragraph_index char_index)
  = (paragraph_index, char_index).
Proof.
  intros _ Hp Hc.
  unfold Line.get_paragraph_char_index, Line.get_line_char_index, list_upto.
  rewrite slice_bound_in_range by lia.
  assert (Hn : nth_error (paragraphs self) (Z.to_nat paragraph_index)
               = Some (nth (Z.to_nat paragraph_index) (paragraphs self) "")).
  { apply nth_error_nth'. unfold llen in Hp. lia. }
  pose proof (scan_paragraphs_hit _ _ _ 0 0 char_index (llen (paragraphs self)) Hn Hc)
    as H.
  simpl in H. rewrite H. f_equal. lia.
Qed.

Lemma offset_round_trip_witness :
  Line.get_paragraph_char_index (mkLine ["abc"; "de"; "fgh"])
    (Line.get_line_char_index (mkLine ["abc"; "de"; "fgh"]) 1 2)
  = (1, 2).
Proof.
  apply (offset_round_trip (mkLine ["abc"; "de"; "fgh"]) 1 2).
  - discriminate.
  - unfold llen; simpl; lia.
  - unfold len; simpl; lia.
Defined.

(** ** Words: [split(' ')] and [' '.join] *)

Lemma split_space_not_nil (s : string) : split_space s <> [].
Proof.
  induction s as [|c s IH]; simpl; [discriminate|].
  destruct (is_space c); [discriminate|].
  destruct (split_space s); discriminate.
Qed.

Lemma split_space_single (w : string) : single_word w -> split_space w = [w].
Proof.
  unfold single_word.
  induction w as [|c w IH]; simpl; intros H; [reflexivity|].
  destruct (is_space c); [discriminate|].
  destruct (first_space w); [discriminate|].
  rewrite IH; reflexivity.
Qed.

Lemma split_space_words (s : string) : Forall single_word (split_space s).
Proof.
  induction s as [|c s IH]; simpl.
  - repeat constructor.
  - destruct (is_space c) eqn:E.
    + constructor; [reflexivity | assumption].
    + destruct (split_space s) as [|w ws]; constructor.
      * unfold single_word; simpl; rewrite E; reflexivity.
      * constructor.
      * inversion IH as [|? ? Hw _]; subst.
        unfold single_word in *; simpl; rewrite E, Hw; reflexivity.
      * inversion IH; assumption.
Qed.

Lemma split_space_app (a b : string) :
  split_space (a ++ " " ++ b) = (split_space a ++ split_space b)%list.
Proof.
  induction a as [|c a IH]; simpl.
  - reflexivity.
  - destruct (is_space c).
    + simpl in IH; rewrite IH; reflexivity.
    + simpl in IH; rewrite IH.
      pose proof (split_space_not_nil a) as Hne.
      destruct (split_space a); [contradiction|reflexivity].
Qed.

Lemma split_space_join (ps : list string) :
  ps <> [] ->
  split_space (join " " ps) = flat_map split_space ps.
Proof.
  induction ps as [|p ps IH]; intros Hne; [contradiction|].
  destruct ps as [|q ps].
  - simpl. rewrite app_nil_r. reflexivity.
  - change (join " " (p :: q :: ps)) with (p ++ " " ++ join " " (q :: ps)).
    rewrite split_space_app, IH by discriminate. reflexivity.
Qed.

Lemma flat_map_split_single (ws : list string) :
  Forall single_word ws -> flat_map split_space ws = ws.
Proof.
  induction 1 as [|w ws Hw _ IH]; simpl; [reflexivity|].
  rewrite (split_space_single w Hw), IH; reflexivity.
Qed.

(** ** The greedy loop of [auto_wrap] *)

Section Wrapping.

Variable font : Font.
Variable max_width : Z.

Lemma fold_wrap_step (words : list string) :
  forall st : Line.wrap_state,
    let st' := fold_left (Line.wrap_step font max_width) words st in
    (if truthy (Line.current_line st')
     then Line.new_paragraphs st' ++ [Line.current_line st']
     else Line.new_paragraphs st')%list
    = (Line.new_paragraphs st
       ++ emitted font max_width (Line.current_line st) words)%list.
Proof.
  induction words as [|w ws IH]; intros st; simpl.
  - destruct (truthy _); [reflexivity | rewrite app_nil_r; reflexivity].
  - rewrite IH. unfold Line.wrap_step.
    destruct (_ <=? _); simpl; [reflexivity|].
    destruct (truthy (Line.current_line st)); simpl;
      rewrite <- app_assoc; reflexivity.
Qed.

Lemma wrap_words_emitted (words : list string) :
  Line.wrap_words font max_width words = emitted font max_width "" words.
Proof.
  unfold Line.wrap_words.
  apply (fold_wrap_step words (Line.mkWrap "" [])).
Qed.

Lemma emitted_fits_or_single (words : list string) :
  Forall single_word words ->
  forall current_line,
    fits_or_single font max_width current_line ->
    Forall (fits_or_single font max_width)
      (emitted font max_width current_line words).
Proof.
  induction 1 as [|w ws Hw _ IH]; intros cur Hcur; simpl.
  - destruct (truthy cur); constructor; auto.
  - destruct (_ <=? _) eqn:E.
    + apply IH. left. apply Z.leb_le in E. exact E.
    + destruct (truthy cur); constructor; auto.
      * apply IH; right; exact Hw.
      * right; exact Hw.
      * apply IH; right; reflexivity.
Qed.

End Wrapping.

(** C9.  Whatever the line, the width and the font, every paragraph that
    [auto_wrap] produces is either at most [max_width] wide or a single
    word, that is, a string without a space. *)
Theorem auto_wrap_no_overflow (self : Line) (font : Font) (max_width : Z) :
  Forall (fun p => font p <= max_width \/ single_word p)
    (paragraphs (Line.auto_wrap self font max_width)).
Proof.
  unfold Line.auto_wrap; simpl.
  rewrite wrap_words_emitted.
  apply emitted_fits_or_single.
  - apply split_space_words.
  - right; reflexivity.
Qed.

(** The same for a sequence of words handed to the loop directly. *)
Lemma wrap_words_no_overflow (font : Font) (max_width : Z) (words : list string) :
  Forall single_word words ->
  Forall (fun p => font p <= max_width \/ single_word p)
    (Line.wrap_words font max_width words).
Proof.
  intros H. rewrite wrap_words_emitted.
  apply emitted_fits_or_single; [exact H | right; reflexivity].
Qed.

(** ** Wrapping twice *)

Section Idempotence.

Variable font : Font.
Variable max_width : Z.
Hypothesis font_monotone : monotone_font font.

Local Notation "'emit'" := (emitted font max_width).

Lemma too_wide_extends (s t : string) :
  (font s <=? max_width) = false -> (font (s ++ t) <=? max_width) = false.
Proof.
  intros H. apply Z.leb_gt in H. apply Z.leb_gt.
  pose proof (font_monotone s t). lia.
Qed.

(** Nothing fits when even the empty text is too wide: every word is
    appended as it comes. *)
Lemma emitted_all_too_wide (words : list string) :
  (font "" <=? max_width) = false -> emit "" words = words.
Proof.
  intros H0. induction words as [|w ws IH]; simpl; [reflexivity|].
  pose proof (too_wide_extends "" w H0) as Hw. simpl in Hw.
  rewrite Hw, IH. reflexivity.
Qed.

Section EmptyFits.

Hypothesis empty_fits : (font "" <=? max_width) = true.

(** A buffer that was set to a word behaves like an empty buffer that
    reads this word first. *)
Lemma emitted_restart (words : list string) :
  forall w : string, emit w words = emit "" (w :: words).
Proof.
  induction words as [|x ws IH]; intros w.
  - simpl. destruct (font w <=? max_width) eqn:E; [reflexivity|].
    destruct w; [congruence | reflexivity].
  - change (emit "" (w :: x :: ws))
      with (if font w <=? max_width then emit w (x :: ws)
            else w :: emit "" (x :: ws)).
    destruct (font w <=? max_width) eqn:E; [reflexivity|].
    destruct w as [|c w]; [congruence|].
    simpl emitted at 1.
    change (String c (w ++ String " " x)) with (String c w ++ " " ++ x).
    rewrite (too_wide_extends (String c w) (" " ++ x) E).
    rewrite (IH x). reflexivity.
Qed.

(** Reading the words of the result again reproduces the result, from a
    non-empty buffer and from the empty one. *)
Lemma emitted_replay (words : list string) :
  Forall single_word words ->
  (forall cur : string, truthy cur = true ->
     exists rest : list string,
       flat_map split_space (emit cur words) = (split_space cur ++ rest)%list
       /\ emit cur rest = emit cur words)
  /\ emit "" (flat_map split_space (emit "" words)) = emit "" words.
Proof.
  induction 1 as [|w ws Hw _ [IH1 IH2]].
  - split.
    + intros cur Hcur. exists []. simpl. rewrite Hcur. simpl.
      rewrite app_nil_r. split; reflexivity.
    + reflexivity.
  - split.
    + intros cur Hcur. simpl. rewrite Hcur.
      destruct (font (cur ++ " " ++ w) <=? max_width) eqn:E.
      * assert (Ht : truthy (cur ++ " " ++ w) = true)
          by (destruct cur; [discriminate | reflexivity]).
        destruct (IH1 _ Ht) as [rest [Hsplit Hrun]].
        exists (w :: rest). split.
        -- rewrite Hsplit, split_space_app, (split_space_single w Hw).
           rewrite <- app_assoc. reflexivity.
        -- simpl. rewrite Hcur, E. exact Hrun.
      * destruct (truthy w) eqn:Ew.
        -- destruct (IH1 w Ew) as [rest [Hsplit Hrun]].
           exists (w :: rest). split.
           ++ simpl. rewrite Hsplit, (split_space_single w Hw). reflexivity.
           ++ simpl. rewrite Hcur, E, Hrun. reflexivity.
        -- apply truthy_false in Ew. subst w.
           exists (flat_map split_space (emit "" ws)). split; [reflexivity|].
           destruct (flat_map split_space (emit "" ws)) as [|r rest] eqn:Er.
           ++ simpl in IH2. rewrite <- IH2. simpl. rewrite Hcur. reflexivity.
           ++ simpl emitted at 1. rewrite Hcur.
              replace (cur ++ " " ++ r) with ((cur ++ " " ++ "") ++ r)
                by (rewrite !str_app_assoc; reflexivity).
              rewrite (too_wide_extends _ r E).
              rewrite (emitted_restart rest r), IH2. reflexivity.
    + simpl emitted at 2 3.
      destruct (font w <=? max_width) eqn:E.
      * destruct (truthy w) eqn:Ew.
        -- destruct (IH1 w Ew) as [rest [Hsplit Hrun]].
           rewrite Hsplit, (split_space_single w Hw). simpl.
           rewrite E. exact Hrun.
        -- apply truthy_false in Ew. subst w. exact IH2.
      * simpl flat_map. rewrite (split_space_single w Hw). simpl.
        rewrite E, IH2. reflexivity.
Qed.

End EmptyFits.

Lemma wrap_words_twice (words : list string) :
  words <> [] ->
  Forall single_word words ->
  emit "" (split_space (join " " (emit "" words))) = emit "" words.
Proof.
  intros Hne Hw.
  destruct (font "" <=? max_width) eqn:E0.
  - destruct (emit "" words) as [|p ps] eqn:Ep.
    + simpl. rewrite E0. reflexivity.
    + rewrite split_space_join by discriminate.
      rewrite <- Ep. apply (emitted_replay E0 words Hw).
  - rewrite (emitted_all_too_wide words E0).
    rewrite split_space_join by exact Hne.
    rewrite (flat_map_split_single words Hw).
    apply emitted_all_too_wide. exact E0.
Qed.

End Idempotence.

(** C8, for fonts that never render a text narrower when more text is
    appended.  For every line and every width, wrapping a line that was
    already wrapped at this width, which joins its paragraphs with single
    spaces and runs the greedy loop again, returns the same paragraphs. *)
Theorem auto_wrap_idempotent (font : Font) (max_width : Z) (self : Line) :
  monotone_font font ->
  Line.auto_wrap (Line.auto_wrap self font max_width) font max_width
  = Line.auto_wrap self font max_width.
Proof.
  intros Hmono. unfold Line.auto_wrap. simpl paragraphs.
  rewrite !wrap_words_emitted. f_equal.
  apply (wrap_words_twice font max_width Hmono).
  - apply split_space_not_nil.
  - apply split_space_words.
Qed.

Lemma mono_font_monotone : monotone_font mono_font.
Proof.
  intros s t. unfold mono_font, len.
  induction s as [|c s IH]; simpl String.length; lia.
Qed.

Lemma auto_wrap_idempotent_witness :
  Line.auto_wrap (Line.auto_wrap (mkLine ["ab  cd"; "e"]) mono_font 3) mono_font 3
  = Line.auto_wrap (mkLine ["ab  cd"; "e"]) mono_font 3.
Proof.
  apply (auto_wrap_idempotent mono_font 3 (mkLine ["ab  cd"; "e"])).
  exact mono_font_monotone.
Defined.

(** Without that assumption on the font the second wrap can differ: with
    [ragged_font] and width 5 the line "a  b" wraps to "a", "b", and
    these wrap to the single paragraph "a b". *)
Lemma auto_wrap_not_idempotent :
  Line.auto_wrap (mkLine ["a  b"]) ragged_font 5 = mkLine ["a"; "b"]
  /\ Line.auto_wrap (Line.auto_wrap (mkLine ["a  b"]) ragged_font 5) ragged_font 5
     = mkLine ["a b"]
  /\ ~ (forall (font : Font) (max_width : Z) (self : Line),
          0 < max_width ->
          Line.auto_wrap (Line.auto_wrap self font max_width) font max_width
          = Line.auto_wrap self font max_width).
Proof.
  split; [reflexivity|]. split; [reflexivity|].
  intros H. specialize (H ragged_font 5 (mkLine ["a  b"]) ltac:(lia)).
  discriminate H.
Qed.

(** ** The empty line *)

(** Whenever the empty text fits, wrapping an empty line leaves it without
    any paragraph: the word read is the empty string, the buffer stays
    empty and the final test drops it. *)
Lemma auto_wrap_empty_line (font : Font) (max_width : Z) :
  font "" <= max_width ->
  Line.auto_wrap (new_Line "") font max_width = mkLine [].
Proof.
  intros H. apply Z.leb_le in H.
  unfold Line.auto_wrap, Line.wrap_words, Line.wrap_step. simpl.
  rewrite H. reflexivity.
Qed.

(** C1.  The specification asks for exactly one empty paragraph after wrapping an
    empty line.  [auto_wrap] returns no paragraph at all: with one pixel
    per character and width 3, [Line('')] is left with zero paragraphs
    (and [num_chars] answers -1), and so is a line holding a single
    space. *)
Theorem auto_wrap_empty_line_has_no_paragraph :
  Line.auto_wrap (new_Line "") mono_font 3 = mkLine []
  /\ Line.num_paragraphs (Line.auto_wrap (new_Line "") mono_font 3) = 0
  /\ Line.num_chars (Line.auto_wrap (new_Line "") mono_font 3) = -1
  /\ Line.auto_wrap (new_Line " ") mono_font 3 = mkLine [].
Proof. repeat split; reflexivity. Qed.

(** ** Splitting a line *)

(** C3.  The specification asks for the raw texts "hello wo" and "rld".  [split]
    joins the kept paragraphs with the empty string, so the space the
    wrap point stood for is lost on the left: the texts are "hellowo"
    and "rld". *)
Theorem split_hello_world :
  Line.split (mkLine ["hello"; "world"]) 1 2
  = Ok (new_Line "hellowo", new_Line "rld")
  /\ Line.split (mkLine ["hello"; "world"]) 1 2
     <> Ok (new_Line "hello wo", new_Line "rld").
Proof. split; [reflexivity | discriminate]. Qed.

(** [_create_newline] only rewrites [self.text]. *)
Lemma _create_newline_keeps_cursor (self self' : TextField) :
  TextField._create_newline self = Ok self' -> cursor self' = cursor self.
Proof.
  unfold TextField._create_newline. intros H.
  destruct (subscript (text self) _) as [orig|]; simpl in H; [|discriminate].
  destruct (Line.split orig _ _) as [[l r]|]; simpl in H; [|discriminate].
  destruct (assign (text self) _ l) as [t1|]; simpl in H; [|discriminate].
  injection H as <-. reflexivity.
Qed.

(** C4.  The specification asks for the cursor at the start of the right line,
    [(line_index + 1, 0, 0)].  [_create_newline] replaces the line by its
    two halves and never assigns the cursor: from the cursor [(0, 1, 2)] in
    the line "hello", "world" it is still [(0, 1, 2)] afterwards, a
    paragraph index the new line 0 does not have, so that reading the
    cursor's paragraph raises [IndexError]. *)
Theorem _create_newline_hello_world :
  let self := narrow_field [mkLine ["hello"; "world"]] (mkCursor 0 1 2) in
  attr text (TextField._create_newline self)
  = Ok [new_Line "hellowo"; new_Line "rld"]
  /\ attr cursor (TextField._create_newline self) = Ok (mkCursor 0 1 2)
  /\ attr cursor (TextField._create_newline self) <> Ok (mkCursor 1 0 0)
  /\ (self' <- TextField._create_newline self ;;
      TextField._get_paragraph self' (cursor self')) = Raise IndexError.
Proof. repeat split; try reflexivity; discriminate. Qed.

(** ** Moving the cursor *)

(** C5.  The specification asks word-wise movement to put the cursor on the next
    or previous space.  [_move_cursor] computes a new position only under
    [if not jump_words], so with [jump_words] set it writes the old
    position back, whatever the field, the cursor and the direction; in
    "ab cd" at index 0, [_next_char_index] would have answered 2. *)
Theorem _move_cursor_jump_words_keeps_cursor :
  (forall (self : TextField) (c : Cursor) (direction : Z),
     TextField._move_cursor self c direction true = Ok c)
  /\ TextField._next_char_index "ab cd" 0 1 true = Ok 2
  /\ attr cursor
       (TextField._move_my_cursor
          (narrow_field [mkLine ["ab cd"]] (mkCursor 0 0 0)) 1 true)
     = Ok (mkCursor 0 0 0).
Proof.
  split; [|split; reflexivity].
  intros self [li pi ci] direction. reflexivity.
Qed.

(** C6.  The specification asks a step back from [(line_index, 0, 0)] to land at
    the end of the last paragraph of the previous line.  After choosing
    that paragraph, [_move_cursor] compares its index with the paragraph
    count of the line it leaves and resets it to 0 when it is not smaller:
    from [(1, 0, 0)] with the lines "ab", "c" and "d" the cursor lands
    at [(0, 0, 2)], the end of the first paragraph, not at [(0, 1, 1)]. *)
Theorem _move_cursor_back_resets_paragraph :
  let self := narrow_field [mkLine ["ab"; "c"]; mkLine ["d"]] (mkCursor 1 0 0) in
  TextField._move_cursor self (cursor self) (-1) false = Ok (mkCursor 0 0 2)
  /\ TextField._move_cursor self (cursor self) (-1) false <> Ok (mkCursor 0 1 1).
Proof. split; [reflexivity | discriminate]. Qed.

Lemma subscript_nth {A : Type} (l : list A) (i : Z) (a : A) :
  0 <= i -> nth_error l (Z.to_nat i) = Some a -> subscript l i = Ok a.
Proof.
  intros Hi Hn. unfold subscript.
  assert (Hlt : (Z.to_nat i < List.length l)%nat)
    by (apply nth_error_Some; congruence).
  destruct (i <? 0) eqn:E; [apply Z.ltb_lt in E; lia|].
  replace ((0 <=? i) && (i <? llen l)) with true.
  - rewrite Hn. reflexivity.
  - symmetry. apply andb_true_iff. split.
    + apply Z.leb_le; lia.
    + apply Z.ltb_lt. unfold llen. lia.
Qed.

(** Where a step back from the start of a line really lands: in the last
    paragraph of the previous line only if that line has no more
    paragraphs than the line left, in its first paragraph otherwise. *)
Lemma _move_cursor_back_across_lines (self : TextField) (li : Z) (prev cur : Line) :
  0 < li ->
  nth_error (text self) (Z.to_nat (li - 1)) = Some prev ->
  nth_error (text self) (Z.to_nat li) = Some cur ->
  paragraphs prev <> [] ->
  paragraphs cur <> [] ->
  let n := Line.num_paragraphs prev in
  let m := Line.num_paragraphs cur in
  let p := if n - 1 >=? m then 0 else n - 1 in
  TextField._move_cursor self (mkCursor li 0 0) (-1) false
  = Ok (mkCursor (li - 1) p (len (nth (Z.to_nat p) (paragraphs prev) ""))).
Proof.
  intros Hli Hprev Hcur Hpne Hcne n m p.
  assert (Hm : 0 < m).
  { unfold m, Line.num_paragraphs, llen.
    destruct (paragraphs cur); [contradiction | simpl; lia]. }
  assert (Hn : 0 < n).
  { unfold n, Line.num_paragraphs, llen.
    destruct (paragraphs prev); [contradiction | simpl; lia]. }
  assert (Hlen : li < llen (text self)).
  { unfold llen.
    assert ((Z.to_nat li < List.length (text self))%nat)
      by (apply nth_error_Some; congruence). lia. }
  destruct (paragraphs cur) as [|p0 ps0] eqn:Ecur; [contradiction|].
  assert (Hp : 0 <= p < n) by (unfold p; destruct (n - 1 >=? m); lia).
  assert (Hnth : nth_error (paragraphs prev) (Z.to_nat p)
                 = Some (nth (Z.to_nat p) (paragraphs prev) "")).
  { apply nth_error_nth'. unfold n, Line.num_paragraphs, llen in Hp. lia. }
  unfold TextField._move_cursor, TextField._get_paragraph,
    TextField._get_paragraph_at, TextField._get_line.
  cbn [negb line_index paragraph_index char_index].
  rewrite (subscript_nth (text self) li cur) by (lia || assumption).
  cbn [bind]. rewrite Ecur.
  cbn [subscript llen List.length nth_error Z.to_nat Z.ltb Z.compare].
  replace (subscript (p0 :: ps0) 0) with (Ok p0) by reflexivity.
  cbn [bind TextField._next_char_index negb].
  replace (0 + -1) with (-1) by lia.
  replace (-1 <? 0) with true by reflexivity.
  cbn [orb bind].
  replace (-1 <? 0) with true by reflexivity.
  cbn [orb].
  replace ((li + -1 <? 0) || (li + -1 >=? llen (text self))) with false.
  2:{ symmetry. apply orb_false_iff. split.
      - apply Z.ltb_ge; lia.
      - rewrite Z.geb_leb. apply Z.leb_gt; lia. }
  replace (li + -1) with (li - 1) by lia.
  rewrite (subscript_nth (text self) (li - 1) prev) by (lia || assumption).
  cbn [bind].
  subst p m n.
  rewrite (subscript_nth (paragraphs prev) _ _ (proj1 Hp) Hnth).
  reflexivity.
Qed.

(** ** Scrolling *)

(** [_update_scroll] only assigns [scroll_offset], and raises only for a
    line height of zero. *)
Lemma _update_scroll_result (self : TextField) :
  line_height self <> 0 ->
  exists o : Z, TextField._update_scroll self = Ok (with_scroll_offset self o).
Proof.
  intros Hlh.
  unfold TextField._update_scroll, TextField._clamp_scroll, TextField.visible_lines.
  apply Z.eqb_neq in Hlh. rewrite Hlh. cbn [bind].
  destruct (_ >=? _); destruct (_ <? _); simpl; rewrite Hlh; simpl;
    eexists; reflexivity.
Qed.

Lemma zsum_num_paragraphs_nonneg (lines : list Line) :
  0 <= zsum (map Line.num_paragraphs lines).
Proof.
  induction lines as [|l ls IH]; simpl.
  - rewrite ?zsum_nil; lia.
  - rewrite zsum_cons. unfold Line.num_paragraphs at 1, llen. lia.
Qed.

(** The cursor is shown after [_update_scroll] as soon as its row is one
    of the rows of the document. *)
Lemma _update_scroll_shows_cursor (self : TextField) :
  line_height self <> 0 ->
  0 <= TextField._get_view_line_pos self (cursor self)
    < TextField._get_num_paragraphs self ->
  exists (self' : TextField) (v : Z),
    TextField._update_scroll self = Ok self'
    /\ TextField.visible_lines self' = Ok v
    /\ cursor_visible self' v.
Proof.
  intros Hlh Hrow.
  unfold TextField._update_scroll, TextField._clamp_scroll, TextField.visible_lines.
  apply Z.eqb_neq in Hlh. rewrite Hlh. cbn [bind].
  set (v := Z.max 1 (Z.quot (rect_height self - 2 * padding self) (line_height self))).
  set (r := TextField._get_view_line_pos self (cursor self)) in *.
  set (total := TextField._get_num_paragraphs self) in *.
  assert (Hv : 1 <= v) by (unfold v; lia).
  destruct (r >=? scroll_offset self + v) eqn:E1;
    [ rewrite Z.geb_leb in E1; apply Z.leb_le in E1
    | rewrite Z.geb_leb in E1; apply Z.leb_gt in E1 ];
    cbn [scroll_offset with_scroll_offset];
    match goal with |- context [r <? ?o] => destruct (r <? o) eqn:E2 end;
    [ apply Z.ltb_lt in E2 | apply Z.ltb_ge in E2
    | apply Z.ltb_lt in E2 | apply Z.ltb_ge in E2 ];
    cbn [line_height rect_height padding with_scroll_offset
         text cursor selection_start scroll_offset rect_width font];
    rewrite Hlh; cbn [bind]; eexists; exists v;
    (split; [reflexivity|]);
    (split; [cbn [TextField.visible_lines line_height rect_height padding
                  with_scroll_offset]; rewrite Hlh; reflexivity|]);
    unfold cursor_visible;
    cbn [scroll_offset with_scroll_offset cursor];
    change (TextField._get_view_line_pos (with_scroll_offset _ _) (cursor self))
      with r;
    change (TextField._get_num_paragraphs (with_scroll_offset _ _)) with total;
    lia.
Qed.

(** ** Inserting a character *)

Section InsertAtWrapPoint.

Variable face : Font.
Variables max_width width height pad row_height offset : Z.
Variable selection : option Cursor.

Hypothesis abc_fits : face "abc" <= max_width.
Hypothesis abcd_too_wide : max_width < face "abcd".
Hypothesis abc_def_too_wide : max_width < face "abc def".
Hypothesis def_fits : face "def" <= max_width.
Hypothesis inner_width : width - 2 * pad = max_width.
Hypothesis row_height_nonzero : row_height <> 0.

Lemma auto_wrap_abc_def :
  Line.auto_wrap (new_Line "abc def") face max_width = mkLine ["abc"; "def"].
Proof.
  unfold Line.auto_wrap, Line.wrap_words, Line.wrap_step. simpl.
  apply Z.leb_le in abc_fits, def_fits. apply Z.leb_gt in abc_def_too_wide.
  rewrite abc_fits. simpl. rewrite abc_def_too_wide. simpl.
  reflexivity.
Qed.

Lemma auto_wrap_abcd_def :
  Line.auto_wrap (mkLine ["abcd"; "def"]) face max_width = mkLine ["abcd"; "def"].
Proof.
  unfold Line.auto_wrap, Line.wrap_words, Line.wrap_step. simpl.
  apply Z.leb_le in def_fits. apply Z.leb_gt in abcd_too_wide.
  rewrite abcd_too_wide. simpl. rewrite def_fits. simpl.
  reflexivity.
Qed.

Lemma _insert_text_at_wrap_point :
  let self :=
    mkTextField [mkLine ["abc"; "def"]] (mkCursor 0 0 3) selection
      offset width height pad row_height face in
  attr text (TextField._insert_text self "d") = Ok [mkLine ["abcd"; "def"]]
  /\ attr cursor (TextField._insert_text self "d") = Ok (mkCursor 0 0 4).
Proof.
  intros self.
  assert (H : exists o,
    TextField._insert_text self "d"
    = Ok (with_scroll_offset
            (mkTextField [mkLine ["abcd"; "def"]] (mkCursor 0 0 4) None
               offset width height pad row_height face) o)).
  { pose proof auto_wrap_abcd_def as Hw.
    unfold self.
    cbv -[Line.auto_wrap TextField._update_scroll Z.sub Z.mul].
    rewrite inner_width, Hw.
    cbv -[TextField._update_scroll Z.sub Z.mul].
    apply _update_scroll_result. exact row_height_nonzero. }
  destruct H as [o ->]. split; reflexivity.
Qed.

End InsertAtWrapPoint.

(** C7, with the character index the code computes.  Let the font and the
    width be such that exactly "abc" fits: "abc" and "def" fit, "abcd"
    and "abc def" do not.  Then "abc def" wraps to "abc", "def"; the
    cursor (0, 0, 3) has the flattened offset 3; and inserting "d" there
    leaves the paragraphs "abcd", "def" and the cursor at paragraph 0,
    character index 4, right after the inserted "d" and not inside
    "def". *)
Theorem _insert_text_abc_def (self : TextField) :
  let max_width := rect_width self - 2 * padding self in
  text self = [mkLine ["abc"; "def"]] ->
  cursor self = mkCursor 0 0 3 ->
  line_height self <> 0 ->
  font self "abc" <= max_width < font self "abcd" ->
  font self "def" <= max_width < font self "abc def" ->
  Line.auto_wrap (new_Line "abc def") (font self) max_width
  = mkLine ["abc"; "def"]
  /\ Line.get_line_char_index (mkLine ["abc"; "def"]) 0 3 = 3
  /\ attr text (TextField._insert_text self "d") = Ok [mkLine ["abcd"; "def"]]
  /\ attr cursor (TextField._insert_text self "d") = Ok (mkCursor 0 0 4).
Proof.
  destruct self as [t c sel so w h pad lh f]. simpl.
  intros -> -> Hlh [Habc Habcd] [Hdef Hlong].
  split; [apply auto_wrap_abc_def; assumption|].
  split; [reflexivity|].
  apply (_insert_text_at_wrap_point f (w - 2 * pad)); auto.
Qed.

Lemma _insert_text_abc_def_witness :
  let self := narrow_field [mkLine ["abc"; "def"]] (mkCursor 0 0 3) in
  Line.auto_wrap (new_Line "abc def") (font self)
    (rect_width self - 2 * padding self)
  = mkLine ["abc"; "def"]
  /\ Line.get_line_char_index (mkLine ["abc"; "def"]) 0 3 = 3
  /\ attr text (TextField._insert_text self "d") = Ok [mkLine ["abcd"; "def"]]
  /\ attr cursor (TextField._insert_text self "d") = Ok (mkCursor 0 0 4).
Proof.
  intros self.
  apply (_insert_text_abc_def self).
  - reflexivity.
  - reflexivity.
  - simpl; lia.
  - vm_compute; split; [discriminate | reflexivity].
  - vm_compute; split; [discriminate | reflexivity].
Defined.

(** Character index 3 is not where the cursor ends up: in the
    field of width 3 with one pixel per character, "abc def" wraps to
    "abc", "def", and after inserting "d" at (0, 0, 3) the cursor is
    (0, 0, 4). *)
Lemma _insert_text_abc_def_not_index_3 :
  let self := narrow_field [mkLine ["abc"; "def"]] (mkCursor 0 0 3) in
  Line.auto_wrap (new_Line "abc def") mono_font 3 = mkLine ["abc"; "def"]
  /\ attr cursor (TextField._insert_text self "d") = Ok (mkCursor 0 0 4)
  /\ attr cursor (TextField._insert_text self "d") <> Ok (mkCursor 0 0 3).
Proof. repeat split; try reflexivity; discriminate. Qed.

(** C10.  The specification asks the cursor's row to be among the rows shown after
    every [_insert_text].  In a field holding one empty line, with the
    cursor (0, 0, 0) and no scrolling, typing a space wraps the line to
    zero paragraphs; the cursor gets the paragraph index -1, its row is -1
    and [scroll_offset] is clamped to 0, so the row is not shown. *)
Theorem _insert_text_space_hides_cursor :
  let self := narrow_field [new_Line ""] (mkCursor 0 0 0) in
  valid_document self
  /\ valid_cursor self (cursor self)
  /\ exists self' : TextField,
       TextField._insert_text self " " = Ok self'
       /\ text self' = [mkLine []]
       /\ cursor self' = mkCursor 0 (-1) 1
       /\ scroll_offset self' = 0
       /\ TextField.visible_lines self' = Ok 1
       /\ TextField._get_view_line_pos self' (cursor self') = -1
       /\ ~ cursor_visible self' 1.
Proof.
  intros self. split; [|split].
  - repeat constructor. discriminate.
  - exists (new_Line ""), "". repeat split; try reflexivity; vm_compute; discriminate.
  - eexists. split; [reflexivity|].
    repeat split; try reflexivity.
    unfold cursor_visible. vm_compute. intros [H _]. apply H. reflexivity.
Qed.

(** ** Movement inside a valid document *)

Lemma nth_error_in_range {A : Type} (l : list A) (i : Z) :
  0 <= i < llen l -> exists a, nth_error l (Z.to_nat i) = Some a.
Proof.
  intros H. unfold llen in H.
  destruct (nth_error l (Z.to_nat i)) as [a|] eqn:E; [eauto|].
  apply nth_error_None in E. lia.
Qed.

Lemma nth_error_llen {A : Type} (l : list A) (i : Z) (a : A) :
  0 <= i -> nth_error l (Z.to_nat i) = Some a -> i < llen l.
Proof.
  intros Hi H. unfold llen.
  assert ((Z.to_nat i < List.length l)%nat) by (apply nth_error_Some; congruence).
  lia.
Qed.

Lemma valid_document_line (self : TextField) (i : Z) (l : Line) :
  valid_document self ->
  nth_error (text self) (Z.to_nat i) = Some l ->
  0 < Line.num_paragraphs l.
Proof.
  intros Hdoc Hl. unfold valid_document in Hdoc.
  rewrite Forall_forall in Hdoc.
  specialize (Hdoc l (nth_error_In _ _ Hl)). unfold valid_line in Hdoc.
  unfold Line.num_paragraphs, llen.
  destruct (paragraphs l); [contradiction | simpl; lia].
Qed.

Lemma zsum_split_at (f : Line -> Z) (n : nat) :
  forall (lines : list Line) (l : Line),
    nth_error lines n = Some l ->
    zsum (map f lines)
    = zsum (map f (firstn n lines)) + f l + zsum (map f (skipn (S n) lines)).
Proof.
  induction n as [|n IH]; intros [|x lines] l H; simpl in H; try discriminate.
  - injection H as ->. simpl. rewrite zsum_cons, ?zsum_nil. lia.
  - simpl firstn. simpl map. rewrite !zsum_cons.
    rewrite (IH lines l H). simpl. lia.
Qed.

(** The row of a cursor standing on a paragraph of a line of the document
    is a row of the document. *)
Lemma view_row_of_paragraph (self : TextField) (c : Cursor) (l : Line) :
  0 <= line_index c ->
  nth_error (text self) (Z.to_nat (line_index c)) = Some l ->
  0 <= paragraph_index c < Line.num_paragraphs l ->
  0 <= TextField._get_view_line_pos self c < TextField._get_num_paragraphs self.
Proof.
  intros Hli Hl Hpi.
  unfold TextField._get_view_line_pos, TextField._get_num_paragraphs, list_upto.
  pose proof (nth_error_llen _ _ _ Hli Hl) as Hlt.
  rewrite slice_bound_in_range by lia.
  rewrite (zsum_split_at Line.num_paragraphs _ _ _ Hl).
  pose proof (zsum_num_paragraphs_nonneg (firstn (Z.to_nat (line_index c)) (text self))).
  pose proof (zsum_num_paragraphs_nonneg (skipn (S (Z.to_nat (line_index c))) (text self))).
  lia.
Qed.

Lemma view_row_in_range (self : TextField) (c : Cursor) :
  valid_cursor self c ->
  0 <= TextField._get_view_line_pos self c < TextField._get_num_paragraphs self.
Proof.
  intros (l & p & Hli & Hl & Hpi & Hp & _).
  apply (view_row_of_paragraph self c l Hli Hl).
  split; [exact Hpi | exact (nth_error_llen _ _ _ Hpi Hp)].
Qed.

Ltac decide_order :=
  repeat match goal with
    | H : (_ <? _) = true |- _ => apply Z.ltb_lt in H
    | H : (_ <? _) = false |- _ => apply Z.ltb_ge in H
    | H : (_ >? _) = _ |- _ => rewrite Z.gtb_ltb in H
    | H : (_ >=? _) = _ |- _ => rewrite Z.geb_leb in H
    | H : (_ <=? _) = true |- _ => apply Z.leb_le in H
    | H : (_ <=? _) = false |- _ => apply Z.leb_gt in H
    end.

(** On a valid document a step of one character never raises and keeps
    the cursor valid, in both directions and at both ends. *)
Lemma _move_cursor_valid (self : TextField) (c : Cursor) (direction : Z)
    (jump_words : bool) :
  valid_document self ->
  valid_cursor self c ->
  direction = 1 \/ direction = -1 ->
  exists c' : Cursor,
    TextField._move_cursor self c direction jump_words = Ok c'
    /\ valid_cursor self c'.
Proof.
  intros Hdoc Hc Hdir.
  destruct jump_words.
  { exists c. split; [destruct c; reflexivity | exact Hc]. }
  pose proof Hc as (l & p & Hli & Hl & Hpi & Hp & Hci).
  destruct c as [li pi ci]. cbn [line_index paragraph_index char_index] in *.
  pose proof (nth_error_llen _ _ _ Hli Hl) as Hlilt.
  pose proof (nth_error_llen _ _ _ Hpi Hp) as Hpilt.
  unfold TextField._move_cursor, TextField._get_paragraph,
    TextField._get_paragraph_at, TextField._get_line.
  cbn [negb line_index paragraph_index char_index].
  rewrite (subscript_nth _ _ _ Hli Hl). cbn [bind].
  rewrite (subscript_nth _ _ _ Hpi Hp).
  cbn [bind TextField._next_char_index negb].
  fold (Line.num_paragraphs l) in Hpilt.
  destruct (ci + direction <? 0) eqn:Eback;
    destruct (ci + direction >? len p) eqn:Efwd; decide_order;
    cbn [orb]; try lia.
  - (* before the start of the paragraph *)
    assert (direction = -1) by lia. subst direction.
    assert (ci = 0) by lia. subst ci.
    destruct (pi + -1 <? 0) eqn:Ep; decide_order; cbn [orb].
    + assert (pi = 0) by lia. subst pi.
      destruct (li + -1 <? 0) eqn:El; decide_order; cbn [orb].
      * eexists; split; [reflexivity | exact Hc].
      * destruct (nth_error_in_range (text self) (li - 1)) as [prev Hprev]; [lia|].
        pose proof (valid_document_line self _ _ Hdoc Hprev) as Hn.
        pose proof (valid_document_line self _ _ Hdoc Hl) as Hm.
        assert (Hpne : paragraphs prev <> [])
          by (intros E; unfold Line.num_paragraphs, llen in Hn; rewrite E in Hn;
              simpl in Hn; lia).
        assert (Hlne : paragraphs l <> [])
          by (intros E; unfold Line.num_paragraphs, llen in Hm; rewrite E in Hm;
              simpl in Hm; lia).
        pose proof (_move_cursor_back_across_lines self li prev l
                      ltac:(lia) Hprev Hl Hpne Hlne) as Hmove.
        cbv zeta in Hmove.
        unfold TextField._move_cursor, TextField._get_paragraph,
          TextField._get_paragraph_at, TextField._get_line in Hmove.
        cbn [negb line_index paragraph_index char_index] in Hmove.
        rewrite (subscript_nth _ _ _ Hli Hl) in Hmove. cbn [bind] in Hmove.
        rewrite (subscript_nth _ _ _ Hpi Hp) in Hmove.
        cbn [bind TextField._next_char_index negb orb] in Hmove.
        replace (0 + -1 <? 0) with true in Hmove by reflexivity.
        cbn [orb] in Hmove.
        replace (0 + -1 <? 0) with true in Hmove by reflexivity.
        cbn [orb] in Hmove.
        apply Z.ltb_ge in El. rewrite El in Hmove. cbn [orb] in Hmove.
        rewrite Hmove.
        eexists; split; [reflexivity|].
        set (q := if Line.num_paragraphs prev - 1 >=? Line.num_paragraphs l
                  then 0 else Line.num_paragraphs prev - 1).
        assert (Hq : 0 <= q < Line.num_paragraphs prev).
        { unfold q.
          destruct (Line.num_paragraphs prev - 1 >=? Line.num_paragraphs l); lia. }
        exists prev, (nth (Z.to_nat q) (paragraphs prev) "").
        cbn [line_index paragraph_index char_index].
        repeat split; try lia; try assumption.
        -- apply nth_error_nth'. unfold Line.num_paragraphs, llen in Hq. lia.
        -- apply len_nonneg.
    + replace (pi + -1 >=? Line.num_paragraphs l) with false
        by (symmetry; rewrite Z.geb_leb; apply Z.leb_gt; lia).
      destruct (nth_error_in_range (paragraphs l) (pi - 1)) as [q Hq];
        [unfold Line.num_paragraphs in Hpilt; lia|].
      replace (pi + -1) with (pi - 1) by lia.
      rewrite (subscript_nth (paragraphs l) (pi - 1) q) by (lia || exact Hq).
      cbn [bind].
      eexists; split; [reflexivity|].
      exists l, q. cbn [line_index paragraph_index char_index].
      pose proof (len_nonneg q). repeat split; try lia; assumption.
  - (* past the end of the paragraph *)
    assert (direction = 1) by lia. subst direction.
    replace (pi + 1 <? 0) with false by (symmetry; apply Z.ltb_ge; lia).
    cbn [orb].
    destruct (pi + 1 >=? Line.num_paragraphs l) eqn:Ep; decide_order.
    + replace (li + 1 <? 0) with false by (symmetry; apply Z.ltb_ge; lia).
      cbn [orb].
      destruct (li + 1 >=? llen (text self)) eqn:El; decide_order.
      * eexists; split; [reflexivity | exact Hc].
      * cbn [bind].
        replace (pi + 1 >=? Line.num_paragraphs l) with true
          by (symmetry; rewrite Z.geb_leb; apply Z.leb_le; exact Ep).
        destruct (nth_error_in_range (text self) (li + 1)) as [next Hnext];
          [lia|].
        pose proof (valid_document_line self _ _ Hdoc Hnext) as Hn.
        destruct (nth_error_in_range (paragraphs next) 0) as [q Hq];
          [unfold Line.num_paragraphs in Hn; lia|].
        cbn [bind].
        eexists; split; [reflexivity|].
        exists next, q. cbn [line_index paragraph_index char_index].
        pose proof (len_nonneg q). repeat split; try lia; assumption.
    + destruct (nth_error_in_range (paragraphs l) (pi + 1)) as [q Hq];
        [unfold Line.num_paragraphs in Ep; lia|].
      eexists; split; [reflexivity|].
      exists l, q. cbn [line_index paragraph_index char_index].
      pose proof (len_nonneg q). repeat split; try lia; assumption.
  - (* inside the paragraph *)
    eexists; split; [reflexivity|].
    exists l, p. cbn [line_index paragraph_index char_index].
    repeat split; try lia; assumption.
Qed.

(** After [_move_my_cursor] on a valid document the cursor's row is
    shown, whatever the scroll offset was before. *)
Lemma _move_my_cursor_shows_cursor (self : TextField) (direction : Z)
    (jump_words : bool) :
  valid_document self ->
  valid_cursor self (cursor self) ->
  direction = 1 \/ direction = -1 ->
  line_height self <> 0 ->
  exists (self' : TextField) (v : Z),
    TextField._move_my_cursor self direction jump_words = Ok self'
    /\ TextField.visible_lines self' = Ok v
    /\ cursor_visible self' v.
Proof.
  intros Hdoc Hc Hdir Hlh.
  destruct (_move_cursor_valid self (cursor self) direction jump_words Hdoc Hc Hdir)
    as [c' [Hmove Hc']].
  unfold TextField._move_my_cursor. rewrite Hmove. cbn [bind].
  apply _update_scroll_shows_cursor.
  - exact Hlh.
  - apply (view_row_in_range (with_cursor self c') c'). exact Hc'.
Qed.

(** ** Insertion and scrolling *)

Lemma assign_nth {A : Type} (l : list A) (i : Z) (v : A) :
  0 <= i < llen l -> assign l i v = Ok (replace_nth (Z.to_nat i) v l).
Proof.
  intros H. unfold assign.
  destruct (i <? 0) eqn:E; [apply Z.ltb_lt in E; lia|].
  replace ((0 <=? i) && (i <? llen l)) with true; [reflexivity|].
  symmetry. apply andb_true_iff. split; [apply Z.leb_le | apply Z.ltb_lt]; lia.
Qed.

Lemma nth_error_replace_nth {A : Type} (n : nat) (v : A) :
  forall l : list A,
    (n < List.length l)%nat -> nth_error (replace_nth n v l) n = Some v.
Proof.
  induction n as [|n IH]; intros [|x l] H; simpl in *; try lia.
  - reflexivity.
  - apply IH. lia.
Qed.

Lemma wrap_lines_lines (font : Font) (max_width : Z) (lines : list Line) :
  forall (i : Z) (c : Cursor),
    fst (TextField.wrap_lines font max_width lines i c)
    = map (fun l => Line.auto_wrap l font max_width) lines.
Proof.
  induction lines as [|l ls IH]; intros i c; simpl; [reflexivity|].
  destruct (i =? line_index c).
  - unfold Line.auto_wrap_and_norm_cursor.
    destruct (Line.get_paragraph_char_index _ _) as [pi ci].
    specialize (IH (i + 1) (mkCursor (line_index c) pi ci)).
    destruct (TextField.wrap_lines font max_width ls (i + 1) _) as [rest c'].
    simpl in *. rewrite IH. reflexivity.
  - specialize (IH (i + 1) c).
    destruct (TextField.wrap_lines font max_width ls (i + 1) c) as [rest c'].
    simpl in *. rewrite IH. reflexivity.
Qed.

Lemma wrap_lines_past (font : Font) (max_width : Z) (lines : list Line) :
  forall (i : Z) (c : Cursor),
    line_index c < i ->
    snd (TextField.wrap_lines font max_width lines i c) = c.
Proof.
  induction lines as [|l ls IH]; intros i c H; simpl; [reflexivity|].
  destruct (i =? line_index c) eqn:E; [apply Z.eqb_eq in E; lia|].
  specialize (IH (i + 1) c ltac:(lia)).
  destruct (TextField.wrap_lines font max_width ls (i + 1) c) as [rest c'].
  exact IH.
Qed.

(** The cursor [_wrap_text] leaves is the one the cursor's line returns. *)
Lemma wrap_lines_cursor (font : Font) (max_width : Z) (k : nat) :
  forall (lines : list Line) (i : Z) (c : Cursor) (l : Line),
    line_index c = i + Z.of_nat k ->
    nth_error lines k = Some l ->
    snd (TextField.wrap_lines font max_width lines i c)
    = snd (Line.auto_wrap_and_norm_cursor l font max_width c).
Proof.
  induction k as [|k IH]; intros [|x ls] i c l Hi Hl; simpl in Hl;
    try discriminate.
  - injection Hl as ->. simpl.
    replace (i =? line_index c) with true by (symmetry; apply Z.eqb_eq; lia).
    destruct (Line.auto_wrap_and_norm_cursor l font max_width c) as [l' c'] eqn:E.
    assert (Hsame : line_index c' = line_index c).
    { unfold Line.auto_wrap_and_norm_cursor in E.
      destruct (Line.get_paragraph_char_index _ _) in E.
      injection E as _ <-. reflexivity. }
    pose proof (wrap_lines_past font max_width ls (i + 1) c' ltac:(lia)) as Hp.
    destruct (TextField.wrap_lines font max_width ls (i + 1) c') as [rest c''].
    exact Hp.
  - simpl.
    replace (i =? line_index c) with false by (symmetry; apply Z.eqb_neq; lia).
    specialize (IH ls (i + 1) c l ltac:(lia) Hl).
    destruct (TextField.wrap_lines font max_width ls (i + 1) c) as [rest c'].
    exact IH.
Qed.

(** The paragraph index found by the scan is an index of the line,
    provided the line has a paragraph. *)
Lemma scan_paragraphs_index (ps : list string) :
  forall i cum x total : Z,
    0 <= i -> i + llen ps = total -> 0 < total ->
    0 <= fst (Line.scan_paragraphs ps i cum x total) < total.
Proof.
  induction ps as [|p ps IH]; intros i cum x total Hi Ht Hpos; simpl.
  - lia.
  - destruct (x <? cum + (len p + 1)).
    + simpl. unfold llen in Ht. simpl List.length in Ht. lia.
    + apply IH; try lia. unfold llen in *. simpl List.length in Ht. lia.
Qed.

(** After [_insert_text] at a valid line and paragraph the cursor's row is
    shown, as long as the edited line wraps to at least one paragraph. *)
Lemma _insert_text_shows_cursor (self : TextField) (char : string)
    (l : Line) (p : string) :
  let c := cursor self in
  let edited :=
    mkLine (replace_nth (Z.to_nat (paragraph_index c))
              (str_upto p (char_index c) ++ char ++ str_from p (char_index c))
              (paragraphs l)) in
  0 <= line_index c ->
  nth_error (text self) (Z.to_nat (line_index c)) = Some l ->
  0 <= paragraph_index c ->
  nth_error (paragraphs l) (Z.to_nat (paragraph_index c)) = Some p ->
  line_height self <> 0 ->
  paragraphs
    (Line.auto_wrap edited (font self) (rect_width self - 2 * padding self))
  <> [] ->
  exists (self' : TextField) (v : Z),
    TextField._insert_text self char = Ok self'
    /\ TextField.visible_lines self' = Ok v
    /\ cursor_visible self' v.
Proof.
  intros c edited Hli Hl Hpi Hp Hlh Hne.
  pose proof (nth_error_llen _ _ _ Hli Hl) as Hlilt.
  pose proof (nth_error_llen _ _ _ Hpi Hp) as Hpilt.
  unfold TextField._insert_text, TextField._get_paragraph,
    TextField._get_paragraph_at.
  fold c.
  rewrite (subscript_nth _ _ _ Hli Hl). cbn [bind].
  rewrite (subscript_nth _ _ _ Hpi Hp). cbn [bind].
  rewrite (assign_nth (paragraphs l)) by lia. cbn [bind]. fold edited.
  rewrite (assign_nth (text self)) by lia. cbn [bind].
  set (text1 := replace_nth (Z.to_nat (line_index c)) edited (text self)).
  assert (Hedited : nth_error text1 (Z.to_nat (line_index c)) = Some edited).
  { apply nth_error_replace_nth. unfold llen in Hlilt. lia. }
  unfold TextField._wrap_text.
  cbn [rect_width padding font text cursor with_text].
  fold c.
  set (mw := rect_width self - 2 * padding self) in *.
  pose proof (wrap_lines_lines (font self) mw text1 0 c) as Hlines.
  pose proof (wrap_lines_cursor (font self) mw (Z.to_nat (line_index c))
                text1 0 c edited ltac:(lia) Hedited) as Hcur.
  destruct (TextField.wrap_lines (font self) mw text1 0 c) as [lines c'].
  cbn [fst snd] in Hlines, Hcur. subst lines.
  unfold Line.auto_wrap_and_norm_cursor in Hcur.
  set (wrapped := Line.auto_wrap edited (font self) mw) in *.
  destruct (Line.get_paragraph_char_index wrapped _) as [pi' ci'] eqn:Escan.
  cbn [snd] in Hcur. subst c'.
  apply _update_scroll_shows_cursor; [exact Hlh|].
  apply view_row_of_paragraph with (l := wrapped);
    cbn [cursor text with_cursor with_text with_selection_start
         line_index paragraph_index]; fold c.
  - exact Hli.
  - apply map_nth_error with (f := fun l0 => Line.auto_wrap l0 (font self) mw).
    exact Hedited.
  - assert (Hpos : 0 < llen (paragraphs wrapped)).
    { unfold llen. destruct (paragraphs wrapped); [contradiction | simpl; lia]. }
    unfold Line.get_paragraph_char_index in Escan.
    pose proof (scan_paragraphs_index (paragraphs wrapped) 0 0
                  (Line.get_line_char_index edited (paragraph_index c) (char_index c))
                  (llen (paragraphs wrapped)) ltac:(lia) ltac:(lia) Hpos) as H.
    rewrite Escan in H. exact H.
Qed.

(** * Further properties of the module *)

(** ** Offsets of a line *)

Lemma len_app (a b : string) : len (a ++ b) = len a + len b.
Proof.
  unfold len. induction a as [|c a IH]; simpl String.length.
  - simpl. lia.
  - simpl append. simpl String.length. lia.
Qed.

Lemma zsum_chars_nonneg (ps : list string) :
  0 <= zsum (map (fun p => len p + 1) ps).
Proof.
  induction ps as [|p ps IH]; simpl.
  - rewrite ?zsum_nil; lia.
  - rewrite zsum_cons. pose proof (len_nonneg p). lia.
Qed.

(** What the scan answers for an offset below the end of the paragraphs
    it still has to read. *)
Lemma scan_paragraphs_below (ps : list string) :
  forall i cum x total : Z,
    ps <> [] \/ cum <= x ->
    x < cum + zsum (map (fun p => len p + 1) ps) ->
    exists k : nat,
      (k < List.length ps)%nat
      /\ Line.scan_paragraphs ps i cum x total
         = (i + Z.of_nat k,
            x - cum - zsum (map (fun p => len p + 1) (firstn k ps)))
      /\ (cum <= x ->
          0 <= x - cum - zsum (map (fun p => len p + 1) (firstn k ps))
            <= len (nth k ps "")).
Proof.
  induction ps as [|p ps IH]; intros i cum x total Hor Hx.
  - simpl in Hx. rewrite ?zsum_nil in Hx.
    destruct Hor as [Hne | Hle]; [contradiction | lia].
  - simpl map in Hx. rewrite zsum_cons in Hx. simpl Line.scan_paragraphs.
    destruct (x <? cum + (len p + 1)) eqn:E.
    + apply Z.ltb_lt in E. exists O. simpl. rewrite ?zsum_nil.
      split; [lia|]. split; [f_equal; lia | lia].
    + apply Z.ltb_ge in E.
      destruct (IH (i + 1) (cum + (len p + 1)) x total (or_intror E) ltac:(lia))
        as (k & Hk & Hscan & Hci).
      exists (S k). simpl firstn. simpl map. rewrite zsum_cons. simpl nth.
      split; [simpl; lia|]. split.
      * rewrite Hscan. f_equal; lia.
      * intros _. specialize (Hci E). lia.
Qed.

Lemma scan_paragraphs_beyond (ps : list string) :
  forall i cum x total : Z,
    cum + zsum (map (fun p => len p + 1) ps) <= x ->
    Line.scan_paragraphs ps i cum x total = (total - 1, 0).
Proof.
  induction ps as [|p ps IH]; intros i cum x total Hx; simpl.
  - reflexivity.
  - simpl map in Hx. rewrite zsum_cons in Hx.
    pose proof (zsum_chars_nonneg ps).
    destruct (x <? cum + (len p + 1)) eqn:E; [apply Z.ltb_lt in E; lia|].
    apply IH. lia.
Qed.

Lemma offset_of_position_of_offset_aux (self : Line) (line_char_index : Z) :
  paragraphs self <> [] ->
  line_char_index < flat_len self ->
  Line.get_line_char_index self
    (fst (Line.get_paragraph_char_index self line_char_index))
    (snd (Line.get_paragraph_char_index self line_char_index))
  = line_char_index.
Proof.
  intros Hne Hx. unfold Line.get_paragraph_char_index.
  destruct (scan_paragraphs_below (paragraphs self) 0 0 line_char_index
              (llen (paragraphs self)) (or_introl Hne)
              ltac:(unfold flat_len in Hx; lia))
    as (k & Hk & Hscan & _).
  rewrite Hscan. cbn [fst snd].
  unfold Line.get_line_char_index, list_upto.
  rewrite slice_bound_in_range by (unfold llen; lia).
  replace (Z.to_nat (0 + Z.of_nat k)) with k by lia. lia.
Qed.

(** X1.  In a line with at least one paragraph, every offset below the
    flattened length, negative ones included, comes back unchanged when it
    is converted to a paragraph and character index and flattened again. *)
Theorem offset_of_position_of_offset (self : Line) (line_char_index : Z) :
  paragraphs self <> [] ->
  line_char_index < flat_len self ->
  Line.get_line_char_index self
    (fst (Line.get_paragraph_char_index self line_char_index))
    (snd (Line.get_paragraph_char_index self line_char_index))
  = line_char_index.
Proof. exact (offset_of_position_of_offset_aux self line_char_index). Qed.

Lemma offset_of_position_of_offset_witness :
  Line.get_line_char_index (mkLine ["abc"; "de"])
    (fst (Line.get_paragraph_char_index (mkLine ["abc"; "de"]) 5))
    (snd (Line.get_paragraph_char_index (mkLine ["abc"; "de"]) 5))
  = 5.
Proof.
  apply (offset_of_position_of_offset (mkLine ["abc"; "de"]) 5).
  - discriminate.
  - vm_compute. reflexivity.
Defined.

(** X2.  In a line with at least one paragraph, every offset that is not
    negative is converted to a position of the line: a paragraph index in
    range and a character index between 0 and the length of that paragraph.
    Offsets past the end are included, they go to the last paragraph. *)
Theorem position_of_offset_valid (self : Line) (line_char_index : Z) :
  paragraphs self <> [] ->
  0 <= line_char_index ->
  let pc := Line.get_paragraph_char_index self line_char_index in
  0 <= fst pc < llen (paragraphs self)
  /\ 0 <= snd pc <= len (nth (Z.to_nat (fst pc)) (paragraphs self) "").
Proof.
  intros Hne Hx pc. unfold pc, Line.get_paragraph_char_index.
  assert (Hn : 0 < llen (paragraphs self)).
  { unfold llen. destruct (paragraphs self); [contradiction | simpl; lia]. }
  destruct (Z.lt_ge_cases line_char_index (flat_len self)) as [Hlt | Hge].
  - destruct (scan_paragraphs_below (paragraphs self) 0 0 line_char_index
                (llen (paragraphs self)) (or_introl Hne)
                ltac:(unfold flat_len in Hlt; lia))
      as (k & Hk & Hscan & Hci).
    rewrite Hscan. cbn [fst snd].
    replace (Z.to_nat (0 + Z.of_nat k)) with k by lia.
    split; [unfold llen; lia | apply Hci; exact Hx].
  - rewrite scan_paragraphs_beyond by (unfold flat_len in Hge; lia).
    cbn [fst snd]. split; [lia|]. split; [lia | apply len_nonneg].
Qed.

Lemma position_of_offset_valid_witness :
  let pc := Line.get_paragraph_char_index (mkLine ["abc"; "de"]) 4 in
  0 <= fst pc < llen (paragraphs (mkLine ["abc"; "de"]))
  /\ 0 <= snd pc
     <= len (nth (Z.to_nat (fst pc)) (paragraphs (mkLine ["abc"; "de"])) "").
Proof.
  apply (position_of_offset_valid (mkLine ["abc"; "de"]) 4).
  - discriminate.
  - lia.
Defined.

(** X3.  An offset at or past the flattened length is not refused: the
    answer is the last paragraph with character index 0, and for a line
    without paragraphs the paragraph index -1. *)
Theorem position_of_offset_past_end (self : Line) (line_char_index : Z) :
  flat_len self <= line_char_index ->
  Line.get_paragraph_char_index self line_char_index
  = (Line.num_paragraphs self - 1, 0).
Proof.
  intros H. unfold Line.get_paragraph_char_index, Line.num_paragraphs.
  apply scan_paragraphs_beyond. unfold flat_len in H. lia.
Qed.

Lemma position_of_offset_past_end_witness :
  Line.get_paragraph_char_index (mkLine ["abc"; "de"]) 7
  = (Line.num_paragraphs (mkLine ["abc"; "de"]) - 1, 0).
Proof.
  apply (position_of_offset_past_end (mkLine ["abc"; "de"]) 7).
  vm_compute. discriminate.
Defined.

Lemma len_join_space (ps : list string) :
  ps <> [] ->
  len (join " " ps) = zsum (map len ps) + llen ps - 1.
Proof.
  induction ps as [|p ps IH]; intros Hne; [contradiction|].
  destruct ps as [|q ps].
  - simpl. rewrite zsum_cons, ?zsum_nil. unfold llen. simpl. lia.
  - change (join " " (p :: q :: ps)) with (p ++ " " ++ join " " (q :: ps)).
    rewrite !len_app, IH by discriminate.
    simpl map. rewrite !zsum_cons. unfold llen. simpl List.length.
    change (len " ") with 1. lia.
Qed.

(** X4.  For a line with at least one paragraph, [num_chars] is the
    length of the text that [auto_wrap] re-joins with single spaces, and
    one less than the number of flattened offsets. *)
Theorem num_chars_is_joined_length (self : Line) :
  paragraphs self <> [] ->
  Line.num_chars self = len (line_text self)
  /\ Line.num_chars self + 1 = flat_len self.
Proof.
  intros Hne. unfold Line.num_chars, line_text, flat_len.
  rewrite len_join_space by exact Hne. split; [reflexivity|].
  clear Hne. induction (paragraphs self) as [|p ps IH].
  - reflexivity.
  - simpl map. rewrite !zsum_cons. unfold llen in *. simpl List.length. lia.
Qed.

Lemma num_chars_is_joined_length_witness :
  Line.num_chars (mkLine ["abc"; "de"]) = len (line_text (mkLine ["abc"; "de"]))
  /\ Line.num_chars (mkLine ["abc"; "de"]) + 1 = flat_len (mkLine ["abc"; "de"]).
Proof.
  apply (num_chars_is_joined_length (mkLine ["abc"; "de"])). discriminate.
Defined.

(** ** What wrapping keeps *)

Lemma join_split_space (s : string) : join " " (split_space s) = s.
Proof.
  induction s as [|c s IH]; [reflexivity|].
  simpl split_space.
  pose proof (split_space_not_nil s) as Hne.
  destruct (split_space s) as [|w ws] eqn:E; [contradiction|].
  destruct (is_space c) eqn:Ec.
  - change (join " " ("" :: w :: ws)) with (" " ++ join " " (w :: ws)).
    rewrite IH. unfold is_space in Ec. apply Ascii.eqb_eq in Ec. subst c.
    reflexivity.
  - destruct ws as [|x ws].
    + simpl in *. congruence.
    + change (join " " (String c w :: x :: ws))
        with (String c (w ++ " " ++ join " " (x :: ws))).
      change (join " " (w :: x :: ws)) with (w ++ " " ++ join " " (x :: ws)) in IH.
      rewrite IH. reflexivity.
Qed.

Lemma emitted_real_words (font : Font) (max_width : Z) (words : list string) :
  Forall single_word words ->
  forall cur : string,
    filter truthy (flat_map split_space (emitted font max_width cur words))
    = filter truthy (split_space cur ++ words).
Proof.
  induction 1 as [|w ws Hw _ IH]; intros cur.
  - simpl. destruct (truthy cur) eqn:E.
    + simpl. reflexivity.
    + apply truthy_false in E. subst cur. reflexivity.
  - simpl emitted. destruct (truthy cur) eqn:E.
    + destruct (font (cur ++ " " ++ w) <=? max_width).
      * rewrite IH, split_space_app, (split_space_single w Hw).
        rewrite <- app_assoc. reflexivity.
      * simpl flat_map. rewrite filter_app, IH, (split_space_single w Hw).
        cbn [app]. rewrite filter_app. reflexivity.
    + apply truthy_false in E. subst cur. simpl append.
      destruct (font w <=? max_width).
      * rewrite IH, (split_space_single w Hw). reflexivity.
      * simpl flat_map. rewrite filter_app, IH, (split_space_single w Hw).
        simpl. destruct (truthy w); reflexivity.
Qed.

(** X5.  Wrapping loses no word and reorders none: the non-empty words of
    the text of the wrapped line are those of the text of the line, in the
    same order, for every font and every width. *)
Theorem auto_wrap_keeps_words (self : Line) (font : Font) (max_width : Z) :
  real_words (line_text (Line.auto_wrap self font max_width))
  = real_words (line_text self).
Proof.
  unfold real_words, line_text, Line.auto_wrap. cbn [paragraphs].
  rewrite wrap_words_emitted.
  pose proof (emitted_real_words font max_width _
                (split_space_words (join " " (paragraphs self))) "") as H.
  destruct (emitted font max_width "" (split_space (join " " (paragraphs self))))
    as [|p ps] eqn:E.
  - simpl in H. simpl. exact H.
  - rewrite split_space_join by discriminate. exact H.
Qed.

Lemma emitted_truthy (font : Font) (max_width : Z) (words : list string) :
  font "" <= max_width ->
  forall cur : string,
    Forall (fun p => p <> "") (emitted font max_width cur words).
Proof.
  intros H0. induction words as [|w ws IH]; intros cur; simpl.
  - destruct cur; constructor; [discriminate | constructor].
  - destruct (_ <=? _) eqn:E; [apply IH|].
    destruct cur as [|c cur]; simpl in *.
    + constructor; [|apply IH].
      intros ->. apply Z.leb_gt in E. lia.
    + constructor; [discriminate | apply IH].
Qed.

(** X6.  When the empty text fits, that is whenever the width of the empty
    text is at most [max_width], no paragraph that [auto_wrap] produces is
    the empty string. *)
Theorem auto_wrap_no_empty_paragraph (self : Line) (font : Font) (max_width : Z) :
  font "" <= max_width ->
  Forall (fun p => p <> "") (paragraphs (Line.auto_wrap self font max_width)).
Proof.
  intros H0. unfold Line.auto_wrap. cbn [paragraphs].
  rewrite wrap_words_emitted. apply emitted_truthy. exact H0.
Qed.

Lemma auto_wrap_no_empty_paragraph_witness :
  Forall (fun p => p <> "")
    (paragraphs (Line.auto_wrap (mkLine [" ab  cd "]) mono_font 3)).
Proof.
  apply (auto_wrap_no_empty_paragraph (mkLine [" ab  cd "]) mono_font 3).
  vm_compute. discriminate.
Defined.

Lemma single_word_no_leading_space (w : string) :
  single_word w -> starts_with_space w = false.
Proof.
  unfold single_word. destruct w as [|c w]; simpl; [reflexivity|].
  destruct (is_space c); [discriminate | reflexivity].
Qed.

Lemma emitted_no_leading_space (font : Font) (max_width : Z) (words : list string) :
  Forall single_word words ->
  forall cur : string,
    starts_with_space cur = false ->
    Forall (fun p => starts_with_space p = false)
      (emitted font max_width cur words).
Proof.
  induction 1 as [|w ws Hw _ IH]; intros cur Hcur; simpl.
  - destruct (truthy cur); constructor; auto.
  - pose proof (single_word_no_leading_space w Hw) as Hws.
    destruct (_ <=? _).
    + apply IH. destruct cur; simpl in *; assumption.
    + destruct (truthy cur); constructor; auto.
Qed.

(** X7.  No paragraph that [auto_wrap] produces begins with a space, for
    every line, font and width: leading blanks of the text and the blanks
    at a wrap point are dropped. *)
Theorem auto_wrap_no_leading_space (self : Line) (font : Font) (max_width : Z) :
  Forall (fun p => starts_with_space p = false)
    (paragraphs (Line.auto_wrap self font max_width)).
Proof.
  unfold Line.auto_wrap. cbn [paragraphs].
  rewrite wrap_words_emitted.
  apply emitted_no_leading_space; [apply split_space_words | reflexivity].
Qed.

Lemma join_cons_app (c w : string) (ws : list string) :
  join " " (c :: w :: ws) = join " " ((c ++ " " ++ w) :: ws).
Proof.
  destruct ws as [|x ws].
  - reflexivity.
  - change (join " " (c :: w :: x :: ws))
      with (c ++ " " ++ (w ++ " " ++ join " " (x :: ws))).
    change (join " " ((c ++ " " ++ w) :: x :: ws))
      with ((c ++ " " ++ w) ++ " " ++ join " " (x :: ws)).
    rewrite !str_app_assoc. reflexivity.
Qed.

Lemma join_cons_prefix (c : string) (ws : list string) :
  exists r : string, join " " (c :: ws) = c ++ r.
Proof.
  destruct ws as [|x ws].
  - exists "". simpl. induction c as [|a c IH]; simpl; congruence.
  - exists (" " ++ join " " (x :: ws)). reflexivity.
Qed.

Lemma emitted_all_fit (font : Font) (max_width : Z) (words : list string) :
  monotone_font font ->
  forall cur : string,
    truthy cur = true ->
    font (join " " (cur :: words)) <= max_width ->
    emitted font max_width cur words = [join " " (cur :: words)].
Proof.
  intros Hmono. induction words as [|w ws IH]; intros cur Hcur Hfit.
  - simpl. rewrite Hcur. reflexivity.
  - simpl emitted. rewrite Hcur.
    rewrite join_cons_app in Hfit |- *.
    destruct (join_cons_prefix (cur ++ " " ++ w) ws) as [r Hr].
    assert (Hstep : font (cur ++ " " ++ w) <= max_width).
    { pose proof (Hmono (cur ++ " " ++ w) r) as H. rewrite <- Hr in H. lia. }
    apply Z.leb_le in Hstep. rewrite Hstep.
    apply IH; [destruct cur; [discriminate | reflexivity] | exact Hfit].
Qed.

(** X8.  A line that fits stays in one piece.  For a font that never
    renders a text narrower when more text is appended: if the text of the
    line is not empty, does not begin with a space and is at most
    [max_width] wide, [auto_wrap] leaves exactly one paragraph, that
    text. *)
Theorem auto_wrap_line_that_fits (self : Line) (font : Font) (max_width : Z) :
  monotone_font font ->
  line_text self <> "" ->
  starts_with_space (line_text self) = false ->
  font (line_text self) <= max_width ->
  Line.auto_wrap self font max_width = mkLine [line_text self].
Proof.
  intros Hmono Hne Hsp Hfit. unfold Line.auto_wrap. fold (line_text self).
  rewrite wrap_words_emitted. f_equal.
  pose proof (join_split_space (line_text self)) as Hjoin.
  destruct (split_space (line_text self)) as [|w ws] eqn:E.
  - exfalso. exact (split_space_not_nil _ E).
  - assert (Hw : truthy w = true).
    { destruct (line_text self) as [|c t]; [contradiction|].
      simpl in E, Hsp. rewrite Hsp in E.
      destruct (split_space t); injection E as <- _; reflexivity. }
    destruct (join_cons_prefix w ws) as [r Hr].
    assert (Hfirst : font w <= max_width).
    { pose proof (Hmono w r) as H. rewrite <- Hr, Hjoin in H. lia. }
    simpl emitted. apply Z.leb_le in Hfirst. rewrite Hfirst.
    rewrite <- Hjoin. apply emitted_all_fit; [exact Hmono | exact Hw |].
    rewrite Hjoin. exact Hfit.
Qed.

Lemma auto_wrap_line_that_fits_witness :
  Line.auto_wrap (mkLine ["ab"; "c"]) mono_font 4
  = mkLine [line_text (mkLine ["ab"; "c"])].
Proof.
  apply (auto_wrap_line_that_fits (mkLine ["ab"; "c"]) mono_font 4).
  - exact mono_font_monotone.
  - discriminate.
  - reflexivity.
  - vm_compute. discriminate.
Defined.

(** X9.  [auto_wrap_and_norm_cursor] carries the cursor over: the line it
    returns is the wrapped line, the cursor keeps its line index, and its
    new paragraph and character index have the flattened offset the cursor
    had before, provided the wrapped line has a paragraph and that many
    offsets. *)
Theorem auto_wrap_and_norm_cursor_keeps_offset (self : Line) (font : Font)
    (max_width : Z) (cursor : Cursor) :
  let offset :=
    Line.get_line_char_index self (paragraph_index cursor) (char_index cursor) in
  let wrapped := fst (Line.auto_wrap_and_norm_cursor self font max_width cursor) in
  let cursor' := snd (Line.auto_wrap_and_norm_cursor self font max_width cursor) in
  paragraphs (Line.auto_wrap self font max_width) <> [] ->
  offset < flat_len (Line.auto_wrap self font max_width) ->
  wrapped = Line.auto_wrap self font max_width
  /\ line_index cursor' = line_index cursor
  /\ Line.get_line_char_index wrapped (paragraph_index cursor') (char_index cursor')
     = offset.
Proof.
  intros offset wrapped cursor' Hne Hlt.
  pose proof (offset_of_position_of_offset_aux
                (Line.auto_wrap self font max_width) offset Hne Hlt) as H.
  unfold wrapped, cursor', Line.auto_wrap_and_norm_cursor. fold offset.
  destruct (Line.get_paragraph_char_index _ offset) as [p c].
  cbn [fst snd line_index paragraph_index char_index] in *.
  repeat split. exact H.
Qed.

Lemma auto_wrap_and_norm_cursor_keeps_offset_witness :
  let self := mkLine ["abc def"] in
  let cursor := mkCursor 0 0 5 in
  let wrapped := fst (Line.auto_wrap_and_norm_cursor self mono_font 3 cursor) in
  let cursor' := snd (Line.auto_wrap_and_norm_cursor self mono_font 3 cursor) in
  wrapped = Line.auto_wrap self mono_font 3
  /\ line_index cursor' = line_index cursor
  /\ Line.get_line_char_index wrapped (paragraph_index cursor') (char_index cursor')
     = Line.get_line_char_index self (paragraph_index cursor) (char_index cursor).
Proof.
  apply (auto_wrap_and_norm_cursor_keeps_offset
           (mkLine ["abc def"]) mono_font 3 (mkCursor 0 0 5)).
  - vm_compute. discriminate.
  - vm_compute. reflexivity.
Defined.

(** ** Wrapping the whole text *)

Lemma auto_wrap_twice (font : Font) (max_width : Z) (l : Line) :
  monotone_font font ->
  Line.auto_wrap (Line.auto_wrap l font max_width) font max_width
  = Line.auto_wrap l font max_width.
Proof.
  intros Hmono. unfold Line.auto_wrap. simpl paragraphs.
  rewrite !wrap_words_emitted. f_equal.
  apply (wrap_words_twice font max_width Hmono).
  - apply split_space_not_nil.
  - apply split_space_words.
Qed.

(** A position that came out of the scan is found again from its own
    flattened offset. *)
Lemma position_stable (l : Line) (x : Z) :
  let pc := Line.get_paragraph_char_index l x in
  Line.get_paragraph_char_index l (Line.get_line_char_index l (fst pc) (snd pc))
  = pc.
Proof.
  intros pc. unfold pc.
  destruct (paragraphs l) as [|p ps] eqn:E.
  - unfold Line.get_paragraph_char_index, Line.get_line_char_index, list_upto.
    rewrite E. reflexivity.
  - assert (Hne : paragraphs l <> []) by (rewrite E; discriminate).
    destruct (Z.lt_ge_cases x (flat_len l)) as [Hlt | Hge].
    + rewrite (offset_of_position_of_offset_aux l x Hne Hlt). reflexivity.
    + assert (Hb : Line.get_paragraph_char_index l x
                   = (Line.num_paragraphs l - 1, 0)).
      { unfold Line.get_paragraph_char_index, Line.num_paragraphs.
        apply scan_paragraphs_beyond. unfold flat_len in Hge. lia. }
      rewrite Hb. cbn [fst snd].
      assert (Hn : 0 < llen (paragraphs l))
        by (unfold llen; rewrite E; simpl; lia).
      destruct (nth_error_in_range (paragraphs l) (llen (paragraphs l) - 1))
        as [q Hq]; [lia|].
      unfold Line.get_paragraph_char_index, Line.get_line_char_index,
        Line.num_paragraphs, list_upto.
      rewrite slice_bound_in_range by lia.
      pose proof (scan_paragraphs_hit (Z.to_nat (llen (paragraphs l) - 1))
                    (paragraphs l) q 0 0 0
                    (llen (paragraphs l)) Hq
                    ltac:(pose proof (len_nonneg q); lia)) as H.
      simpl in H. rewrite H. f_equal. lia.
Qed.

Lemma wrap_lines_far (font : Font) (max_width : Z) (lines : list Line) :
  forall (i : Z) (c : Cursor),
    i + llen lines <= line_index c ->
    snd (TextField.wrap_lines font max_width lines i c) = c.
Proof.
  induction lines as [|l ls IH]; intros i c H; simpl; [reflexivity|].
  unfold llen in H. simpl List.length in H.
  destruct (i =? line_index c) eqn:E; [apply Z.eqb_eq in E; lia|].
  specialize (IH (i + 1) c ltac:(unfold llen; lia)).
  destruct (TextField.wrap_lines font max_width ls (i + 1) c) as [rest c'].
  exact IH.
Qed.

Lemma wrap_lines_twice (font : Font) (max_width : Z) (lines : list Line)
    (c : Cursor) :
  monotone_font font ->
  let r := TextField.wrap_lines font max_width lines 0 c in
  TextField.wrap_lines font max_width (fst r) 0 (snd r) = r.
Proof.
  intros Hmono r.
  apply injective_projections; unfold r; rewrite !wrap_lines_lines.
  - rewrite map_map. apply map_ext. intros l. apply auto_wrap_twice. exact Hmono.
  - set (wrap := fun l => Line.auto_wrap l font max_width).
    destruct (Z.lt_ge_cases (line_index c) 0) as [Hneg | Hnn].
    + rewrite (wrap_lines_past font max_width lines 0 c Hneg).
      apply wrap_lines_past. exact Hneg.
    + destruct (Z.lt_ge_cases (line_index c) (llen lines)) as [Hin | Hout].
      * destruct (nth_error_in_range lines (line_index c)) as [l Hl]; [lia|].
        rewrite (wrap_lines_cursor font max_width (Z.to_nat (line_index c))
                   lines 0 c l ltac:(lia) Hl).
        set (c1 := snd (Line.auto_wrap_and_norm_cursor l font max_width c)).
        assert (Hli : line_index c1 = line_index c).
        { unfold c1, Line.auto_wrap_and_norm_cursor.
          destruct (Line.get_paragraph_char_index _ _). reflexivity. }
        rewrite (wrap_lines_cursor font max_width (Z.to_nat (line_index c))
                   (map wrap lines) 0 c1 (wrap l) ltac:(lia)
                   (map_nth_error wrap _ _ Hl)).
        unfold Line.auto_wrap_and_norm_cursor at 1.
        unfold wrap at 1 2. rewrite (auto_wrap_twice font max_width l Hmono).
        unfold c1, Line.auto_wrap_and_norm_cursor.
        pose proof (position_stable (Line.auto_wrap l font max_width)
                      (Line.get_line_char_index l (paragraph_index c)
                         (char_index c))) as Hst.
        destruct (Line.get_paragraph_char_index (Line.auto_wrap l font max_width)
                    (Line.get_line_char_index l (paragraph_index c)
                       (char_index c))) as [p1 k1].
        cbn [fst snd line_index paragraph_index char_index] in *.
        rewrite Hst. reflexivity.
      * rewrite (wrap_lines_far font max_width lines 0 c ltac:(lia)).
        apply wrap_lines_far. unfold llen in *. rewrite length_map. lia.
Qed.

(** X10.  Wrapping the text twice is wrapping it once.  For a font that
    never renders a text narrower when more text is appended, a second
    [_wrap_text] changes neither a paragraph nor the cursor, wherever the
    cursor is. *)
Theorem _wrap_text_idempotent (self : TextField) :
  monotone_font (font self) ->
  TextField._wrap_text (TextField._wrap_text self) = TextField._wrap_text self.
Proof.
  intros Hmono.
  pose proof (wrap_lines_twice (font self) (rect_width self - 2 * padding self)
                (text self) (cursor self) Hmono) as H.
  cbv zeta in H.
  unfold TextField._wrap_text.
  destruct (TextField.wrap_lines (font self) (rect_width self - 2 * padding self)
              (text self) 0 (cursor self)) as [lines c].
  cbn [fst snd] in H.
  cbn [rect_width padding font text cursor with_text with_cursor].
  rewrite H. reflexivity.
Qed.

Lemma _wrap_text_idempotent_witness :
  let self := narrow_field [mkLine ["ab  cd e"]; mkLine [""]] (mkCursor 0 0 7) in
  TextField._wrap_text (TextField._wrap_text self) = TextField._wrap_text self.
Proof.
  intros self. apply (_wrap_text_idempotent self). exact mono_font_monotone.
Defined.

(** ** Splitting a line in two *)

Lemma str_app_empty (s : string) : s ++ "" = s.
Proof. induction s as [|c s IH]; simpl; congruence. Qed.

Lemma str_take_drop (n : nat) :
  forall s : string, str_take n s ++ str_drop n s = s.
Proof.
  induction n as [|n IH]; intros [|c s]; simpl; try reflexivity.
  rewrite IH. reflexivity.
Qed.

Lemma join_empty_cons (x : string) (l : list string) :
  join "" (x :: l) = x ++ join "" l.
Proof.
  destruct l as [|y l]; simpl.
  - rewrite str_app_empty. reflexivity.
  - reflexivity.
Qed.

Lemma join_empty_app (a b : list string) :
  join "" (a ++ b) = join "" a ++ join "" b.
Proof.
  induction a as [|x a IH].
  - reflexivity.
  - change ((x :: a) ++ b)%list with (x :: (a ++ b))%list.
    rewrite !join_empty_cons, IH, str_app_assoc. reflexivity.
Qed.

Lemma nth_error_take_drop {A : Type} (n : nat) :
  forall (l : list A) (a : A),
    nth_error l n = Some a ->
    l = (firstn n l ++ a :: skipn (S n) l)%list.
Proof.
  induction n as [|n IH]; intros [|x l] a H; simpl in H; try discriminate.
  - injection H as ->. reflexivity.
  - simpl. f_equal. apply IH. exact H.
Qed.

Lemma split_in_range (self : Line) (paragraph_index split_index : Z) (p : string) :
  0 <= paragraph_index ->
  nth_error (paragraphs self) (Z.to_nat paragraph_index) = Some p ->
  Line.split self paragraph_index split_index
  = Ok (new_Line
          (join "" (firstn (Z.to_nat paragraph_index) (paragraphs self)
                    ++ [str_upto p split_index])),
        new_Line
          (join "" (str_from p split_index
                    :: skipn (S (Z.to_nat paragraph_index)) (paragraphs self)))).
Proof.
  intros Hpi Hp.
  pose proof (nth_error_llen _ _ _ Hpi Hp) as Hlt.
  unfold Line.split, list_upto, list_from, list_insert.
  rewrite (subscript_nth _ _ _ Hpi Hp). cbn [bind].
  rewrite (slice_bound_in_range _ paragraph_index) by lia.
  rewrite (slice_bound_in_range _ (paragraph_index + 1)) by lia.
  replace (Z.to_nat (paragraph_index + 1)) with (S (Z.to_nat paragraph_index))
    by lia.
  replace (slice_bound (llen (skipn (S (Z.to_nat paragraph_index)) (paragraphs self))) 0)
    with O by (unfold slice_bound; simpl; lia).
  reflexivity.
Qed.

Lemma split_keeps_characters_aux (self : Line) (paragraph_index split_index : Z) :
  0 <= paragraph_index < llen (paragraphs self) ->
  exists left_text right_text : string,
    Line.split self paragraph_index split_index
    = Ok (new_Line left_text, new_Line right_text)
    /\ left_text ++ right_text = join "" (paragraphs self).
Proof.
  intros Hpi.
  destruct (nth_error_in_range (paragraphs self) paragraph_index Hpi) as [p Hp].
  rewrite (split_in_range self paragraph_index split_index p (proj1 Hpi) Hp).
  eexists. eexists. split; [reflexivity|].
  assert (Hps : join "" (paragraphs self)
                = join "" (firstn (Z.to_nat paragraph_index) (paragraphs self))
                  ++ p
                  ++ join "" (skipn (S (Z.to_nat paragraph_index)) (paragraphs self))).
  { rewrite (nth_error_take_drop _ _ _ Hp) at 1.
    rewrite join_empty_app, join_empty_cons. reflexivity. }
  rewrite Hps, join_empty_app, !join_empty_cons.
  change (join "" []) with "". rewrite str_app_empty.
  rewrite !str_app_assoc. f_equal.
  rewrite <- str_app_assoc. f_equal.
  apply str_take_drop.
Qed.


(** X11.  Splitting at a paragraph index in range never raises, whatever
    the split index is, and loses no character: each of the two lines has
    one paragraph, and the two texts put together are the paragraphs of the
    line put together. *)
Theorem split_keeps_characters (self : Line) (paragraph_index split_index : Z) :
  0 <= paragraph_index < llen (paragraphs self) ->
  exists left_text right_text : string,
    Line.split self paragraph_index split_index
    = Ok (new_Line left_text, new_Line right_text)
    /\ left_text ++ right_text = join "" (paragraphs self).
Proof. exact (split_keeps_characters_aux self paragraph_index split_index). Qed.

Lemma split_keeps_characters_witness :
  exists left_text right_text : string,
    Line.split (mkLine ["ab"; "cde"; "f"]) 1 2
    = Ok (new_Line left_text, new_Line right_text)
    /\ left_text ++ right_text = join "" (paragraphs (mkLine ["ab"; "cde"; "f"])).
Proof.
  apply (split_keeps_characters (mkLine ["ab"; "cde"; "f"]) 1 2).
  vm_compute. split; [discriminate | reflexivity].
Defined.

Lemma length_replace_nth {A : Type} (n : nat) (v : A) :
  forall l : list A, List.length (replace_nth n v l) = List.length l.
Proof.
  induction n as [|n IH]; intros [|x l]; simpl; try reflexivity.
  rewrite IH. reflexivity.
Qed.

Lemma firstn_replace_nth {A : Type} (n : nat) (v : A) :
  forall l : list A,
    (n < List.length l)%nat ->
    firstn (S n) (replace_nth n v l) = (firstn n l ++ [v])%list.
Proof.
  induction n as [|n IH]; intros [|x l] H; simpl in *; try lia.
  - reflexivity.
  - f_equal. apply IH. lia.
Qed.

Lemma skipn_replace_nth {A : Type} (n : nat) (v : A) :
  forall l : list A, skipn (S n) (replace_nth n v l) = skipn (S n) l.
Proof.
  induction n as [|n IH]; intros [|x l]; try reflexivity.
  exact (IH l).
Qed.

(** X12.  With the cursor on a paragraph of the document, [_create_newline]
    never raises.  It puts two one-paragraph lines in the place of the
    cursor's line, whose texts put together are the paragraphs of that line
    put together, and leaves the lines before and after, and every other
    attribute of the field, as they were. *)
Theorem _create_newline_replaces_one_line (self : TextField) (l : Line) :
  let li := line_index (cursor self) in
  0 <= li ->
  nth_error (text self) (Z.to_nat li) = Some l ->
  0 <= paragraph_index (cursor self) < Line.num_paragraphs l ->
  exists left_text right_text : string,
    TextField._create_newline self
    = Ok (with_text self
            (firstn (Z.to_nat li) (text self)
             ++ new_Line left_text :: new_Line right_text
                :: skipn (S (Z.to_nat li)) (text self)))
    /\ left_text ++ right_text = join "" (paragraphs l).
Proof.
  intros li Hli Hl Hpi.
  pose proof (nth_error_llen _ _ _ Hli Hl) as Hlt.
  destruct (split_keeps_characters_aux l (paragraph_index (cursor self))
              (char_index (cursor self)) Hpi)
    as (a & b & Hsplit & Hab).
  exists a, b. split; [|exact Hab].
  unfold TextField._create_newline. fold li.
  rewrite (subscript_nth _ _ _ Hli Hl). cbn [bind].
  rewrite Hsplit. cbn [bind].
  rewrite assign_nth by lia. cbn [bind].
  unfold list_insert.
  rewrite slice_bound_in_range
    by (unfold llen in *; rewrite length_replace_nth; lia).
  replace (Z.to_nat (li + 1)) with (S (Z.to_nat li)) by lia.
  rewrite firstn_replace_nth by (unfold llen in Hlt; lia).
  rewrite skipn_replace_nth, <- app_assoc. reflexivity.
Qed.

Lemma _create_newline_replaces_one_line_witness :
  let self := narrow_field [mkLine ["x"]; mkLine ["ab"; "cd"]] (mkCursor 1 1 1) in
  exists left_text right_text : string,
    TextField._create_newline self
    = Ok (with_text self
            (firstn 1 (text self)
             ++ new_Line left_text :: new_Line right_text
                :: skipn 2 (text self)))
    /\ left_text ++ right_text = join "" (paragraphs (mkLine ["ab"; "cd"])).
Proof.
  intros self.
  apply (_create_newline_replaces_one_line self (mkLine ["ab"; "cd"])).
  - simpl; lia.
  - reflexivity.
  - vm_compute. split; [discriminate | reflexivity].
Defined.

(** ** Single steps of the cursor *)

Section Steps.

Variable self : TextField.
Variables li pi ci : Z.
Variable l : Line.
Variable p : string.
Hypothesis line_ok : 0 <= li.
Hypothesis line_at : nth_error (text self) (Z.to_nat li) = Some l.
Hypothesis paragraph_ok : 0 <= pi.
Hypothesis paragraph_at : nth_error (paragraphs l) (Z.to_nat pi) = Some p.

Ltac start_step :=
  unfold TextField._move_cursor, TextField._get_paragraph,
    TextField._get_paragraph_at, TextField._get_line;
  cbn [negb line_index paragraph_index char_index];
  rewrite (subscript_nth _ _ _ line_ok line_at); cbn [bind];
  rewrite (subscript_nth _ _ _ paragraph_ok paragraph_at);
  cbn [bind TextField._next_char_index negb].

Ltac order_false t :=
  replace t with false
    by (symmetry;
        first [ apply Z.ltb_ge; lia
              | rewrite Z.gtb_ltb; apply Z.ltb_ge; lia
              | rewrite Z.geb_leb; apply Z.leb_gt; lia ]).

Ltac order_true t :=
  replace t with true
    by (symmetry;
        first [ apply Z.ltb_lt; lia
              | rewrite Z.gtb_ltb; apply Z.ltb_lt; lia
              | rewrite Z.geb_leb; apply Z.leb_le; lia ]).

Lemma step_inside (direction : Z) :
  0 <= ci + direction <= len p ->
  TextField._move_cursor self (mkCursor li pi ci) direction false
  = Ok (mkCursor li pi (ci + direction)).
Proof.
  intros H. start_step.
  order_false (ci + direction <? 0). order_false (ci + direction >? len p).
  reflexivity.
Qed.

Lemma step_to_next_paragraph :
  ci = len p ->
  pi + 1 < Line.num_paragraphs l ->
  TextField._move_cursor self (mkCursor li pi ci) 1 false
  = Ok (mkCursor li (pi + 1) 0).
Proof.
  intros Hci Hpi. start_step. pose proof (len_nonneg p).
  order_false (ci + 1 <? 0). order_true (ci + 1 >? len p). cbn [orb].
  order_false (pi + 1 <? 0). order_false (pi + 1 >=? Line.num_paragraphs l).
  reflexivity.
Qed.

Lemma step_to_previous_paragraph (q : string) :
  ci = 0 ->
  0 < pi ->
  nth_error (paragraphs l) (Z.to_nat (pi - 1)) = Some q ->
  TextField._move_cursor self (mkCursor li pi ci) (-1) false
  = Ok (mkCursor li (pi - 1) (len q)).
Proof.
  intros Hci Hpi Hq. start_step. pose proof (len_nonneg p).
  pose proof (nth_error_llen _ _ _ paragraph_ok paragraph_at) as Hlt.
  fold (Line.num_paragraphs l) in Hlt.
  order_true (ci + -1 <? 0). cbn [orb].
  order_false (pi + -1 <? 0). order_false (pi + -1 >=? Line.num_paragraphs l).
  cbn [orb]. order_false (ci + -1 >? len p).
  replace (pi + -1) with (pi - 1) by lia. cbn [bind].
  rewrite (subscript_nth (paragraphs l) (pi - 1) q) by (lia || exact Hq).
  reflexivity.
Qed.

Lemma step_stops_at_start :
  li = 0 -> pi = 0 -> ci = 0 ->
  TextField._move_cursor self (mkCursor li pi ci) (-1) false
  = Ok (mkCursor li pi ci).
Proof.
  intros Hl0 Hp0 Hc0. start_step.
  order_true (ci + -1 <? 0). cbn [orb].
  order_true (pi + -1 <? 0). cbn [orb].
  order_true (li + -1 <? 0). cbn [orb].
  reflexivity.
Qed.

Lemma step_stops_at_end :
  li = llen (text self) - 1 ->
  pi = Line.num_paragraphs l - 1 ->
  ci = len p ->
  TextField._move_cursor self (mkCursor li pi ci) 1 false
  = Ok (mkCursor li pi ci).
Proof.
  intros Hl0 Hp0 Hc0. start_step. pose proof (len_nonneg p).
  order_false (ci + 1 <? 0). order_true (ci + 1 >? len p). cbn [orb].
  order_false (pi + 1 <? 0). order_true (pi + 1 >=? Line.num_paragraphs l).
  cbn [orb].
  order_false (li + 1 <? 0). order_true (li + 1 >=? llen (text self)).
  reflexivity.
Qed.

End Steps.

(** X13.  On a valid document, a step of one character in either
    direction from a valid cursor never raises, with or without
    [jump_words], and the cursor it leaves is valid again. *)
Theorem _move_cursor_keeps_cursor_valid (self : TextField) (c : Cursor)
    (direction : Z) (jump_words : bool) :
  valid_document self ->
  valid_cursor self c ->
  direction = 1 \/ direction = -1 ->
  exists c' : Cursor,
    TextField._move_cursor self c direction jump_words = Ok c'
    /\ valid_cursor self c'.
Proof. exact (_move_cursor_valid self c direction jump_words). Qed.

Lemma _move_cursor_keeps_cursor_valid_witness :
  let self := narrow_field [mkLine ["ab"; "c"]; mkLine ["d"]] (mkCursor 0 1 1) in
  exists c' : Cursor,
    TextField._move_cursor self (mkCursor 0 1 1) 1 false = Ok c'
    /\ valid_cursor self c'.
Proof.
  intros self.
  apply (_move_cursor_keeps_cursor_valid self (mkCursor 0 1 1) 1 false).
  - repeat constructor; discriminate.
  - exists (mkLine ["ab"; "c"]), "c".
    repeat split; try reflexivity; vm_compute; discriminate.
  - left; reflexivity.
Defined.

(** X14.  Inside a line a step forward is undone by a step back: from a
    valid cursor that is not at the end of the last paragraph of its line,
    moving by +1 gives another cursor, and moving that one by -1 gives the
    first cursor again.  This covers the step over a wrap point. *)
Theorem _move_cursor_forward_then_back (self : TextField) (c : Cursor)
    (l : Line) (p : string) :
  0 <= line_index c ->
  nth_error (text self) (Z.to_nat (line_index c)) = Some l ->
  0 <= paragraph_index c ->
  nth_error (paragraphs l) (Z.to_nat (paragraph_index c)) = Some p ->
  0 <= char_index c <= len p ->
  char_index c < len p \/ paragraph_index c + 1 < Line.num_paragraphs l ->
  exists c1 : Cursor,
    TextField._move_cursor self c 1 false = Ok c1
    /\ c1 <> c
    /\ TextField._move_cursor self c1 (-1) false = Ok c.
Proof.
  destruct c as [li pi ci]. cbn [line_index paragraph_index char_index].
  intros Hli Hl Hpi Hp Hci Hnotend.
  destruct (Z.lt_ge_cases ci (len p)) as [Hin | Hend].
  - exists (mkCursor li pi (ci + 1)). split; [|split].
    + apply (step_inside self li pi ci l p Hli Hl Hpi Hp 1). lia.
    + intros E. injection E as E. lia.
    + rewrite (step_inside self li pi (ci + 1) l p Hli Hl Hpi Hp (-1)) by lia.
      do 2 f_equal. lia.
  - assert (Hnext : pi + 1 < Line.num_paragraphs l) by lia.
    destruct (nth_error_in_range (paragraphs l) (pi + 1)) as [q Hq];
      [unfold Line.num_paragraphs in Hnext; lia|].
    exists (mkCursor li (pi + 1) 0). split; [|split].
    + apply (step_to_next_paragraph self li pi ci l p Hli Hl Hpi Hp); lia.
    + intros E. injection E as E _. lia.
    + rewrite (step_to_previous_paragraph self li (pi + 1) 0 l q Hli Hl
                 ltac:(lia) Hq p eq_refl ltac:(lia))
        by (replace (pi + 1 - 1) with pi by lia; exact Hp).
      f_equal. f_equal; lia.
Qed.

Lemma _move_cursor_forward_then_back_witness :
  let self := narrow_field [mkLine ["ab"; "c"]] (mkCursor 0 0 2) in
  exists c1 : Cursor,
    TextField._move_cursor self (mkCursor 0 0 2) 1 false = Ok c1
    /\ c1 <> mkCursor 0 0 2
    /\ TextField._move_cursor self c1 (-1) false = Ok (mkCursor 0 0 2).
Proof.
  intros self.
  apply (_move_cursor_forward_then_back self (mkCursor 0 0 2)
           (mkLine ["ab"; "c"]) "ab").
  - simpl; lia.
  - reflexivity.
  - simpl; lia.
  - reflexivity.
  - vm_compute. split; discriminate.
  - right. vm_compute. reflexivity.
Defined.

(** X15.  Inside a line a step back is undone by a step forward: from a
    valid cursor that is not at the start of the first paragraph of its
    line, moving by -1 gives another cursor, and moving that one by +1
    gives the first cursor again. *)
Theorem _move_cursor_back_then_forward (self : TextField) (c : Cursor)
    (l : Line) (p : string) :
  0 <= line_index c ->
  nth_error (text self) (Z.to_nat (line_index c)) = Some l ->
  0 <= paragraph_index c ->
  nth_error (paragraphs l) (Z.to_nat (paragraph_index c)) = Some p ->
  0 <= char_index c <= len p ->
  0 < char_index c \/ 0 < paragraph_index c ->
  exists c1 : Cursor,
    TextField._move_cursor self c (-1) false = Ok c1
    /\ c1 <> c
    /\ TextField._move_cursor self c1 1 false = Ok c.
Proof.
  destruct c as [li pi ci]. cbn [line_index paragraph_index char_index].
  intros Hli Hl Hpi Hp Hci Hnotstart.
  pose proof (nth_error_llen _ _ _ Hpi Hp) as Hlt.
  destruct (Z.lt_ge_cases 0 ci) as [Hin | Hstart].
  - exists (mkCursor li pi (ci + -1)). split; [|split].
    + apply (step_inside self li pi ci l p Hli Hl Hpi Hp (-1)). lia.
    + intros E. injection E as E. lia.
    + rewrite (step_inside self li pi (ci + -1) l p Hli Hl Hpi Hp 1) by lia.
      do 2 f_equal. lia.
  - assert (Hprev : 0 < pi) by lia.
    destruct (nth_error_in_range (paragraphs l) (pi - 1)) as [q Hq]; [lia|].
    exists (mkCursor li (pi - 1) (len q)). split; [|split].
    + apply (step_to_previous_paragraph self li pi ci l p Hli Hl Hpi Hp q);
        [lia | lia | exact Hq].
    + intros E. injection E as E _. lia.
    + rewrite (step_to_next_paragraph self li (pi - 1) (len q) l q Hli Hl
                 ltac:(lia) Hq eq_refl)
        by (unfold Line.num_paragraphs; lia).
      f_equal. f_equal; lia.
Qed.

Lemma _move_cursor_back_then_forward_witness :
  let self := narrow_field [mkLine ["ab"; "c"]] (mkCursor 0 1 0) in
  exists c1 : Cursor,
    TextField._move_cursor self (mkCursor 0 1 0) (-1) false = Ok c1
    /\ c1 <> mkCursor 0 1 0
    /\ TextField._move_cursor self c1 1 false = Ok (mkCursor 0 1 0).
Proof.
  intros self.
  apply (_move_cursor_back_then_forward self (mkCursor 0 1 0)
           (mkLine ["ab"; "c"]) "c").
  - simpl; lia.
  - reflexivity.
  - simpl; lia.
  - reflexivity.
  - vm_compute. split; discriminate.
  - right. simpl. lia.
Defined.

(** ** The end of the document *)

Lemma last_cons_default {A : Type} (l : list A) :
  forall a d d' : A, last (a :: l) d = last (a :: l) d'.
Proof.
  induction l as [|b l IH]; intros a d d'; [reflexivity|].
  change (last (a :: b :: l) d) with (last (b :: l) d).
  change (last (a :: b :: l) d') with (last (b :: l) d').
  apply IH.
Qed.

Lemma nth_error_last {A : Type} (rest : list A) :
  forall x : A, nth_error (x :: rest) (List.length rest) = Some (last rest x).
Proof.
  induction rest as [|y rest IH]; intros x; [reflexivity|].
  simpl List.length. change (nth_error (x :: y :: rest) (S (List.length rest)))
    with (nth_error (y :: rest) (List.length rest)).
  rewrite IH. f_equal. destruct rest as [|a rest]; [reflexivity|].
  change (last (y :: a :: rest) x) with (last (a :: rest) x).
  apply last_cons_default.
Qed.

Lemma end_cursor_spec (self : TextField) :
  valid_document self ->
  text self <> [] ->
  exists (l : Line) (p : string),
    end_cursor_of self l p
    /\ nth_error (text self) (Z.to_nat (llen (text self) - 1)) = Some l
    /\ nth_error (paragraphs l) (Z.to_nat (Line.num_paragraphs l - 1)) = Some p.
Proof.
  intros Hdoc Hne. unfold end_cursor_of, TextField.end_cursor.
  destruct (text self) as [|x rest] eqn:Et; [contradiction|].
  pose proof (nth_error_last rest x) as Hl.
  assert (Hvalid : valid_line (last rest x)).
  { unfold valid_document in Hdoc. rewrite Et in Hdoc.
    rewrite Forall_forall in Hdoc. apply Hdoc.
    apply (nth_error_In _ _ Hl). }
  unfold valid_line in Hvalid.
  destruct (paragraphs (last rest x)) as [|y more] eqn:Ep; [contradiction|].
  exists (last rest x), (last more y).
  split; [unfold Line.num_paragraphs; rewrite Ep; reflexivity|].
  split.
  - replace (Z.to_nat (llen (x :: rest) - 1)) with (List.length rest)
      by (unfold llen; simpl List.length; lia).
    exact Hl.
  - unfold Line.num_paragraphs. rewrite Ep.
    replace (Z.to_nat (llen (y :: more) - 1)) with (List.length more)
      by (unfold llen; simpl List.length; lia).
    apply nth_error_last.
Qed.

(** X16.  The ends of a valid document with at least one line absorb the
    movement: a step back from [Cursor(0, 0, 0)] and a step forward from
    [end_cursor()] both return without raising and leave the cursor where
    it was. *)
Theorem _move_cursor_stops_at_document_ends (self : TextField) :
  valid_document self ->
  text self <> [] ->
  TextField._move_cursor self (mkCursor 0 0 0) (-1) false = Ok (mkCursor 0 0 0)
  /\ TextField._move_cursor self (TextField.end_cursor self) 1 false
     = Ok (TextField.end_cursor self).
Proof.
  intros Hdoc Hne. split.
  - destruct (text self) as [|l0 rest] eqn:Et; [contradiction|].
    assert (Hl0 : nth_error (text self) (Z.to_nat 0) = Some l0)
      by (rewrite Et; reflexivity).
    pose proof (valid_document_line self 0 l0 Hdoc Hl0) as Hn.
    destruct (nth_error_in_range (paragraphs l0) 0) as [p0 Hp0];
      [unfold Line.num_paragraphs in Hn; lia|].
    apply (step_stops_at_start self 0 0 0 l0 p0); (lia || assumption).
  - destruct (end_cursor_spec self Hdoc Hne) as (l & p & Hend & Hl & Hp).
    rewrite Hend.
    assert (HN : 0 < llen (text self)).
    { unfold llen. destruct (text self); [contradiction | simpl; lia]. }
    pose proof (valid_document_line self _ l Hdoc Hl) as Hn.
    apply (step_stops_at_end self _ _ _ l p); (lia || assumption).
Qed.

Lemma _move_cursor_stops_at_document_ends_witness :
  let self := narrow_field [mkLine ["ab"; "c"]; mkLine ["d"]] (mkCursor 0 0 0) in
  TextField._move_cursor self (mkCursor 0 0 0) (-1) false = Ok (mkCursor 0 0 0)
  /\ TextField._move_cursor self (TextField.end_cursor self) 1 false
     = Ok (TextField.end_cursor self).
Proof.
  intros self. apply (_move_cursor_stops_at_document_ends self).
  - repeat constructor; discriminate.
  - discriminate.
Defined.

Lemma end_cursor_is_valid (self : TextField) :
  valid_document self ->
  text self <> [] ->
  valid_cursor self (TextField.end_cursor self)
  /\ TextField._get_view_line_pos self (TextField.end_cursor self)
     = TextField._get_num_paragraphs self - 1.
Proof.
  intros Hdoc Hne.
  destruct (end_cursor_spec self Hdoc Hne) as (l & p & Hend & Hl & Hp).
  rewrite Hend.
  assert (HN : 0 < llen (text self)).
  { unfold llen. destruct (text self); [contradiction | simpl; lia]. }
  pose proof (valid_document_line self _ l Hdoc Hl) as Hn.
  split.
  - exists l, p. cbn [line_index paragraph_index char_index].
    pose proof (len_nonneg p). repeat split; try lia; assumption.
  - unfold TextField._get_view_line_pos, TextField._get_num_paragraphs, list_upto.
    cbn [line_index paragraph_index].
    rewrite slice_bound_in_range by lia.
    rewrite (zsum_split_at Line.num_paragraphs _ _ _ Hl).
    replace (S (Z.to_nat (llen (text self) - 1))) with (List.length (text self))
      by (unfold llen in *; lia).
    rewrite skipn_all. simpl map. rewrite ?zsum_nil. lia.
Qed.

(** X17.  In a valid document with at least one line, [end_cursor()] is a
    valid cursor and stands on the last row of the document. *)
Theorem end_cursor_on_last_row (self : TextField) :
  valid_document self ->
  text self <> [] ->
  valid_cursor self (TextField.end_cursor self)
  /\ TextField._get_view_line_pos self (TextField.end_cursor self)
     = TextField._get_num_paragraphs self - 1.
Proof. exact (end_cursor_is_valid self). Qed.

Lemma end_cursor_on_last_row_witness :
  let self := narrow_field [mkLine ["ab"; "c"]; mkLine ["d"; "e"]] (mkCursor 0 0 0) in
  valid_cursor self (TextField.end_cursor self)
  /\ TextField._get_view_line_pos self (TextField.end_cursor self)
     = TextField._get_num_paragraphs self - 1.
Proof.
  intros self. apply (end_cursor_on_last_row self).
  - repeat constructor; discriminate.
  - discriminate.
Defined.

(** ** Rows: from a cursor to its row and from a row to its paragraph *)

Lemma num_paragraphs_nonneg (l : Line) : 0 <= Line.num_paragraphs l.
Proof. unfold Line.num_paragraphs, llen. lia. Qed.

Lemma zsum_firstn_step (a : nat) :
  forall (lines : list Line) (b : nat) (x : Line),
    nth_error lines a = Some x ->
    (a < b)%nat ->
    zsum (map Line.num_paragraphs (firstn a lines)) + Line.num_paragraphs x
    <= zsum (map Line.num_paragraphs (firstn b lines)).
Proof.
  induction a as [|a IH]; intros [|y ls] [|b] x Hx Hab; simpl in Hx;
    try discriminate; try lia.
  - injection Hx as ->. simpl firstn. simpl map. rewrite zsum_cons, ?zsum_nil.
    pose proof (zsum_num_paragraphs_nonneg (firstn b ls)). lia.
  - simpl firstn. simpl map. rewrite !zsum_cons.
    specialize (IH ls b x Hx ltac:(lia)). lia.
Qed.

(** X18.  Rows follow the order of the positions: of two cursors that
    stand on paragraphs of the document, the one on the earlier line, or on
    the earlier paragraph of the same line, has the strictly smaller view
    row.  Two different paragraphs therefore never share a row. *)
Theorem view_row_strictly_increases (self : TextField) (c1 c2 : Cursor) :
  on_paragraph self c1 ->
  on_paragraph self c2 ->
  line_index c1 < line_index c2
  \/ (line_index c1 = line_index c2 /\ paragraph_index c1 < paragraph_index c2) ->
  TextField._get_view_line_pos self c1 < TextField._get_view_line_pos self c2.
Proof.
  intros (l1 & Hli1 & Hl1 & Hpi1) (l2 & Hli2 & Hl2 & Hpi2) Horder.
  pose proof (nth_error_llen _ _ _ Hli1 Hl1) as Hlt1.
  pose proof (nth_error_llen _ _ _ Hli2 Hl2) as Hlt2.
  unfold TextField._get_view_line_pos, list_upto.
  rewrite !slice_bound_in_range by lia.
  destruct Horder as [Hlines | [Hsame Hpars]].
  - pose proof (zsum_firstn_step (Z.to_nat (line_index c1)) (text self)
                  (Z.to_nat (line_index c2)) l1 Hl1 ltac:(lia)).
    lia.
  - rewrite Hsame. lia.
Qed.

Lemma view_row_strictly_increases_witness :
  let self := narrow_field [mkLine ["ab"; "c"]; mkLine ["d"]] (mkCursor 0 0 0) in
  TextField._get_view_line_pos self (mkCursor 0 1 0)
  < TextField._get_view_line_pos self (mkCursor 1 0 0).
Proof.
  intros self.
  apply (view_row_strictly_increases self (mkCursor 0 1 0) (mkCursor 1 0 0)).
  - exists (mkLine ["ab"; "c"]). repeat split; try reflexivity; vm_compute; discriminate.
  - exists (mkLine ["d"]). repeat split; try reflexivity; vm_compute; discriminate.
  - left. simpl. lia.
Defined.

Lemma scan_lines_hit (k : nat) :
  forall (lines : list Line) (i start pi : Z) (l : Line),
    nth_error lines k = Some l ->
    0 <= pi < Line.num_paragraphs l ->
    TextField.scan_lines lines i start
      (start + zsum (map Line.num_paragraphs (firstn k lines)) + pi)
    = Some (i + Z.of_nat k, pi).
Proof.
  induction k as [|k IH]; intros [|x ls] i start pi l Hl Hpi; simpl in Hl;
    try discriminate.
  - injection Hl as ->. simpl. rewrite ?zsum_nil.
    replace (start + 0 + pi <? start + Line.num_paragraphs l) with true
      by (symmetry; apply Z.ltb_lt; lia).
    f_equal. f_equal; lia.
  - simpl firstn. simpl map. rewrite zsum_cons. simpl TextField.scan_lines.
    pose proof (zsum_num_paragraphs_nonneg (firstn k ls)).
    pose proof (num_paragraphs_nonneg x).
    match goal with |- context [?a <? ?b] =>
      replace (a <? b) with false by (symmetry; apply Z.ltb_ge; lia) end.
    replace (start + (Line.num_paragraphs x
                      + zsum (map Line.num_paragraphs (firstn k ls))) + pi)
      with ((start + Line.num_paragraphs x)
            + zsum (map Line.num_paragraphs (firstn k ls)) + pi) by lia.
    rewrite (IH ls (i + 1) (start + Line.num_paragraphs x) pi l Hl Hpi).
    f_equal. f_equal. lia.
Qed.

Lemma scan_lines_total (lines : list Line) :
  forall i start row : Z,
    start <= row ->
    (start + zsum (map Line.num_paragraphs lines) <= row ->
     TextField.scan_lines lines i start row = None)
    /\ (row < start + zsum (map Line.num_paragraphs lines) ->
        exists (k : nat) (l : Line),
          nth_error lines k = Some l
          /\ TextField.scan_lines lines i start row
             = Some (i + Z.of_nat k,
                     row - start
                     - zsum (map Line.num_paragraphs (firstn k lines)))
          /\ 0 <= row - start - zsum (map Line.num_paragraphs (firstn k lines))
               < Line.num_paragraphs l).
Proof.
  induction lines as [|x ls IH]; intros i start row Hrow.
  - simpl. rewrite ?zsum_nil. split; [reflexivity | lia].
  - simpl map. rewrite zsum_cons. simpl TextField.scan_lines.
    pose proof (zsum_num_paragraphs_nonneg ls).
    pose proof (num_paragraphs_nonneg x).
    destruct (row <? start + Line.num_paragraphs x) eqn:E.
    + apply Z.ltb_lt in E. split; [lia|]. intros _.
      exists O, x. simpl. rewrite ?zsum_nil.
      split; [reflexivity|]. split; [f_equal; f_equal; lia | lia].
    + apply Z.ltb_ge in E.
      destruct (IH (i + 1) (start + Line.num_paragraphs x) row E) as [Hnone Hsome].
      split.
      * intros H1. apply Hnone. lia.
      * intros H1. destruct (Hsome ltac:(lia)) as (k & l & Hl & Hscan & Hin).
        exists (S k), l. simpl firstn. simpl map. rewrite zsum_cons.
        split; [exact Hl|]. split.
        -- rewrite Hscan. f_equal. f_equal; lia.
        -- lia.
Qed.

(** X19.  Hit-testing finds a cursor's paragraph again: when the cursor
    stands on a paragraph of the document and [ypos] falls into the cursor's
    view row, [_get_line_and_paragraph_by_y] returns the cursor's line and
    paragraph index. *)
Theorem _get_line_and_paragraph_by_y_of_view_row (self : TextField) (c : Cursor)
    (ypos : Z) :
  on_paragraph self c ->
  line_height self <> 0 ->
  scroll_offset self + ypos / line_height self
  = TextField._get_view_line_pos self c ->
  TextField._get_line_and_paragraph_by_y self ypos
  = Ok (Some (line_index c, paragraph_index c)).
Proof.
  intros (l & Hli & Hl & Hpi) Hlh Hrow.
  pose proof (nth_error_llen _ _ _ Hli Hl) as Hlt.
  unfold TextField._get_line_and_paragraph_by_y.
  apply Z.eqb_neq in Hlh. rewrite Hlh, Hrow.
  unfold TextField._get_view_line_pos, list_upto.
  rewrite slice_bound_in_range by lia.
  pose proof (scan_lines_hit (Z.to_nat (line_index c)) (text self) 0 0
                (paragraph_index c) l Hl Hpi) as H.
  simpl in H. rewrite H. do 3 f_equal. lia.
Qed.

Lemma _get_line_and_paragraph_by_y_of_view_row_witness :
  let self := narrow_field [mkLine ["ab"; "c"]; mkLine ["d"]] (mkCursor 0 0 0) in
  TextField._get_line_and_paragraph_by_y self 25
  = Ok (Some (line_index (mkCursor 1 0 0), paragraph_index (mkCursor 1 0 0))).
Proof.
  intros self.
  apply (_get_line_and_paragraph_by_y_of_view_row self (mkCursor 1 0 0) 25).
  - exists (mkLine ["d"]). repeat split; try reflexivity; vm_compute; discriminate.
  - simpl; lia.
  - reflexivity.
Defined.

Lemma by_y_total (self : TextField) (ypos : Z) :
  line_height self <> 0 ->
  let row := scroll_offset self + ypos / line_height self in
  0 <= row ->
  (TextField._get_num_paragraphs self <= row ->
   TextField._get_line_and_paragraph_by_y self ypos = Ok None)
  /\ (row < TextField._get_num_paragraphs self ->
      exists li pi : Z,
        TextField._get_line_and_paragraph_by_y self ypos = Ok (Some (li, pi))
        /\ on_paragraph self (mkCursor li pi 0)
        /\ TextField._get_view_line_pos self (mkCursor li pi 0) = row).
Proof.
  intros Hlh row Hrow.
  unfold TextField._get_line_and_paragraph_by_y, TextField._get_num_paragraphs.
  apply Z.eqb_neq in Hlh. rewrite Hlh. fold row.
  destruct (scan_lines_total (text self) 0 0 row Hrow) as [Hnone Hsome].
  split.
  - intros H. rewrite Hnone by lia. reflexivity.
  - intros H. destruct (Hsome ltac:(lia)) as (k & l & Hl & Hscan & Hin).
    rewrite Hscan. eexists. eexists. split; [reflexivity|].
    assert (Hk : (k < List.length (text self))%nat)
      by (apply nth_error_Some; congruence).
    split.
    + exists l. cbn [line_index paragraph_index].
      replace (Z.to_nat (0 + Z.of_nat k)) with k by lia.
      split; [lia|]. split; [exact Hl | lia].
    + unfold TextField._get_view_line_pos, list_upto.
      cbn [line_index paragraph_index].
      rewrite slice_bound_in_range by (unfold llen; lia).
      replace (Z.to_nat (0 + Z.of_nat k)) with k by lia. lia.
Qed.

(** X20.  For a row that is not negative, hit-testing answers exactly for
    the rows of the document: a row at or past the number of paragraphs
    gives [None], and a smaller row gives a line and a paragraph index that
    exist and whose view row is that row. *)
Theorem _get_line_and_paragraph_by_y_total (self : TextField) (ypos : Z) :
  line_height self <> 0 ->
  let row := scroll_offset self + ypos / line_height self in
  0 <= row ->
  (TextField._get_num_paragraphs self <= row ->
   TextField._get_line_and_paragraph_by_y self ypos = Ok None)
  /\ (row < TextField._get_num_paragraphs self ->
      exists li pi : Z,
        TextField._get_line_and_paragraph_by_y self ypos = Ok (Some (li, pi))
        /\ on_paragraph self (mkCursor li pi 0)
        /\ TextField._get_view_line_pos self (mkCursor li pi 0) = row).
Proof. exact (by_y_total self ypos). Qed.

Lemma _get_line_and_paragraph_by_y_total_witness :
  let self := narrow_field [mkLine ["ab"; "c"]; mkLine ["d"]] (mkCursor 0 0 0) in
  let row := scroll_offset self + 25 / line_height self in
  (TextField._get_num_paragraphs self <= row ->
   TextField._get_line_and_paragraph_by_y self 25 = Ok None)
  /\ (row < TextField._get_num_paragraphs self ->
      exists li pi : Z,
        TextField._get_line_and_paragraph_by_y self 25 = Ok (Some (li, pi))
        /\ on_paragraph self (mkCursor li pi 0)
        /\ TextField._get_view_line_pos self (mkCursor li pi 0) = row).
Proof.
  intros self.
  apply (_get_line_and_paragraph_by_y_total self 25).
  - simpl; lia.
  - vm_compute. discriminate.
Defined.

(** A position above the first row is not refused: the answer is line 0
    with the negative row as the paragraph index. *)
Lemma by_y_above_first_row (self : TextField)
    (ypos : Z) :
  text self <> [] ->
  line_height self <> 0 ->
  scroll_offset self + ypos / line_height self < 0 ->
  TextField._get_line_and_paragraph_by_y self ypos
  = Ok (Some (0, scroll_offset self + ypos / line_height self)).
Proof.
  intros Hne Hlh Hrow.
  unfold TextField._get_line_and_paragraph_by_y.
  apply Z.eqb_neq in Hlh. rewrite Hlh.
  destruct (text self) as [|l0 rest]; [contradiction|].
  simpl. pose proof (num_paragraphs_nonneg l0).
  match goal with |- context [?a <? ?b] =>
    replace (a <? b) with true by (symmetry; apply Z.ltb_lt; lia) end.
  do 3 f_equal. lia.
Qed.


(** ** From a mouse position to a cursor *)

Lemma first_wider_range (font : Font) (paragraph : string) (rel_x : Z) (n : nat) :
  forall (a : nat) (r : Z),
    TextField.first_wider font paragraph rel_x (seq a n) = Some r ->
    Z.of_nat a <= r < Z.of_nat (a + n).
Proof.
  induction n as [|n IH]; intros a r H; simpl in H; [discriminate|].
  destruct (_ >? _).
  - injection H as <-. lia.
  - specialize (IH (S a) r H). lia.
Qed.

Lemma subscript_from_end {A : Type} (l : list A) (i : Z) :
  - llen l <= i < 0 -> exists a : A, subscript l i = Ok a.
Proof.
  intros H. unfold subscript.
  replace (i <? 0) with true by (symmetry; apply Z.ltb_lt; lia).
  replace ((0 <=? llen l + i) && (llen l + i <? llen l)) with true.
  - destruct (nth_error_in_range l (llen l + i) ltac:(lia)) as [a Ha].
    rewrite Ha. eauto.
  - symmetry. apply andb_true_iff.
    split; [apply Z.leb_le | apply Z.ltb_lt]; lia.
Qed.

(** X21.  In a valid document with at least one line, a mouse position
    outside the rectangle, or inside it on a row that is not negative,
    gives a valid cursor and never raises: a position past the last row or
    outside the rectangle gives [end_cursor()]. *)
Theorem _cursor_from_mouse_pos_valid (self : TextField) (rect_x rect_y : Z)
    (collidepoint : Z -> Z -> bool) (mouse_pos : Z * Z) :
  valid_document self ->
  text self <> [] ->
  line_height self <> 0 ->
  collidepoint (fst mouse_pos) (snd mouse_pos) = false
  \/ 0 <= scroll_offset self
          + (snd mouse_pos - rect_y - padding self) / line_height self ->
  exists c : Cursor,
    TextField._cursor_from_mouse_pos self rect_x rect_y collidepoint mouse_pos
    = Ok c
    /\ valid_cursor self c.
Proof.
  intros Hdoc Hne Hlh Hwhere.
  pose proof (end_cursor_is_valid self Hdoc Hne) as [Hend _].
  unfold TextField._cursor_from_mouse_pos.
  destruct (collidepoint (fst mouse_pos) (snd mouse_pos)) eqn:Ein; cbn [negb];
    [|eauto].
  destruct Hwhere as [Hout | Hrow]; [discriminate|].
  destruct (text self) as [|l0 rest] eqn:Et; [contradiction|].
  rewrite <- Et.
  destruct (by_y_total self (snd mouse_pos - rect_y - padding self) Hlh Hrow)
    as [Hnone Hsome].
  set (row := scroll_offset self
              + (snd mouse_pos - rect_y - padding self) / line_height self) in *.
  destruct (Z.lt_ge_cases row (TextField._get_num_paragraphs self)) as [Hin | Hpast].
  - destruct (Hsome Hin) as (li & pi & Hby & (l & Hli & Hl & Hpi) & _).
    cbn [line_index paragraph_index] in *.
    rewrite Hby. cbn [bind].
    rewrite (subscript_nth _ _ _ Hli Hl). cbn [bind].
    destruct (nth_error_in_range (paragraphs l) pi) as [p Hp];
      [unfold Line.num_paragraphs in Hpi; lia|].
    rewrite (subscript_nth _ _ _ (proj1 Hpi) Hp). cbn [bind].
    destruct (TextField.first_wider _ _ _ _) as [r|] eqn:Ew.
    + apply first_wider_range in Ew. eexists. split; [reflexivity|].
      exists l, p. cbn [line_index paragraph_index char_index].
      unfold len. repeat split; try lia; assumption.
    + eexists. split; [reflexivity|].
      exists l, p. cbn [line_index paragraph_index char_index].
      pose proof (len_nonneg p). repeat split; try lia; assumption.
  - rewrite (Hnone Hpast). cbn [bind]. eauto.
Qed.

Lemma _cursor_from_mouse_pos_valid_witness :
  let self := narrow_field [mkLine ["ab"; "c"]; mkLine ["d"]] (mkCursor 0 0 0) in
  exists c : Cursor,
    TextField._cursor_from_mouse_pos self 0 0 (fun _ _ => true) (6, 17) = Ok c
    /\ valid_cursor self c.
Proof.
  intros self.
  apply (_cursor_from_mouse_pos_valid self 0 0 (fun _ _ => true) (6, 17)).
  - repeat constructor; discriminate.
  - discriminate.
  - simpl; lia.
  - right. vm_compute. discriminate.
Defined.

(** X22.  A position inside the rectangle but above the first row gives a
    cursor that is not valid.  When the row is negative, but not by more
    than the number of paragraphs of line 0, [_cursor_from_mouse_pos]
    returns a cursor on line 0 whose paragraph index is that negative
    row: this is what a click in the top padding of an unscrolled field
    gives. *)
Theorem _cursor_from_mouse_pos_above_first_row (self : TextField)
    (rect_x rect_y : Z) (collidepoint : Z -> Z -> bool) (mouse_pos : Z * Z)
    (l0 : Line) :
  let row :=
    scroll_offset self
    + (snd mouse_pos - rect_y - padding self) / line_height self in
  collidepoint (fst mouse_pos) (snd mouse_pos) = true ->
  nth_error (text self) 0 = Some l0 ->
  line_height self <> 0 ->
  - Line.num_paragraphs l0 <= row < 0 ->
  exists c : Cursor,
    TextField._cursor_from_mouse_pos self rect_x rect_y collidepoint mouse_pos
    = Ok c
    /\ line_index c = 0
    /\ paragraph_index c = row
    /\ ~ valid_cursor self c.
Proof.
  intros row Hin Hl0 Hlh Hrow.
  assert (Hne : text self <> []) by (intros E; rewrite E in Hl0; discriminate).
  pose proof (by_y_above_first_row self _ Hne Hlh (proj2 Hrow)) as Hby.
  fold row in Hby.
  pose proof (subscript_nth (text self) 0 l0 (Z.le_refl 0) Hl0) as Hsub.
  destruct (subscript_from_end (paragraphs l0) row) as [p Hp];
    [unfold Line.num_paragraphs in Hrow; lia|].
  assert (Hinvalid : forall k, ~ valid_cursor self (mkCursor 0 row k)).
  { intros k (l & q & _ & _ & Hpi & _). cbn [paragraph_index] in Hpi. lia. }
  unfold TextField._cursor_from_mouse_pos. rewrite Hin. cbn [negb].
  rewrite Hby. cbn [bind]. rewrite Hsub. cbn [bind]. rewrite Hp. cbn [bind].
  destruct (text self) as [|x rest]; [exfalso; apply Hne; reflexivity|].
  destruct (TextField.first_wider _ _ _ _);
    eexists; (split; [reflexivity|]); repeat split; apply Hinvalid.
Qed.

Lemma _cursor_from_mouse_pos_above_first_row_witness :
  let self := narrow_field [mkLine ["ab"; "c"]] (mkCursor 0 0 0) in
  exists c : Cursor,
    TextField._cursor_from_mouse_pos self 0 0 (fun _ _ => true) (6, 2) = Ok c
    /\ line_index c = 0
    /\ paragraph_index c
       = scroll_offset self + (snd (6, 2) - 0 - padding self) / line_height self
    /\ ~ valid_cursor self c.
Proof.
  intros self.
  apply (_cursor_from_mouse_pos_above_first_row self 0 0 (fun _ _ => true)
           (6, 2) (mkLine ["ab"; "c"])).
  - reflexivity.
  - reflexivity.
  - simpl; lia.
  - vm_compute. split; [discriminate | reflexivity].
Defined.

(** ** Scrolling *)

Lemma with_scroll_offset_same (self : TextField) :
  with_scroll_offset self (scroll_offset self) = self.
Proof. destruct self. reflexivity. Qed.

(** X23.  [_clamp_scroll] raises only for a line height of zero.  It
    assigns nothing but [scroll_offset], the new offset lies between 0 and
    the number of paragraphs minus the visible rows (or 0 when that is
    negative), and an offset that already lies there is kept. *)
Theorem _clamp_scroll_in_range (self : TextField) :
  line_height self <> 0 ->
  exists v o : Z,
    TextField.visible_lines self = Ok v
    /\ TextField._clamp_scroll self = Ok (with_scroll_offset self o)
    /\ 0 <= o <= Z.max 0 (TextField._get_num_paragraphs self - v)
    /\ (scroll_in_range self v -> o = scroll_offset self).
Proof.
  intros Hlh. unfold TextField._clamp_scroll, TextField.visible_lines, scroll_in_range.
  apply Z.eqb_neq in Hlh. rewrite Hlh. cbn [bind].
  eexists. eexists. split; [reflexivity|]. split; [reflexivity|]. lia.
Qed.

Lemma _clamp_scroll_in_range_witness :
  let self := with_scroll_offset (narrow_field [mkLine ["ab"; "c"]] (mkCursor 0 0 0)) 7 in
  exists v o : Z,
    TextField.visible_lines self = Ok v
    /\ TextField._clamp_scroll self = Ok (with_scroll_offset self o)
    /\ 0 <= o <= Z.max 0 (TextField._get_num_paragraphs self - v)
    /\ (scroll_in_range self v -> o = scroll_offset self).
Proof.
  intros self. apply (_clamp_scroll_in_range self). simpl; lia.
Defined.

(** X24.  [_update_scroll] raises only for a line height of zero, assigns
    nothing but [scroll_offset], and always leaves an offset between 0 and
    the number of paragraphs minus the visible rows (or 0 when that is
    negative), wherever the cursor is. *)
Theorem _update_scroll_in_range (self : TextField) :
  line_height self <> 0 ->
  exists v o : Z,
    TextField.visible_lines self = Ok v
    /\ TextField._update_scroll self = Ok (with_scroll_offset self o)
    /\ 0 <= o <= Z.max 0 (TextField._get_num_paragraphs self - v).
Proof.
  intros Hlh.
  exists (Z.max 1 (Z.quot (rect_height self - 2 * padding self) (line_height self))).
  unfold TextField._update_scroll, TextField._clamp_scroll, TextField.visible_lines.
  apply Z.eqb_neq in Hlh. rewrite Hlh. cbn [bind].
  destruct (_ >=? _); destruct (_ <? _);
    cbn [line_height rect_height padding with_scroll_offset scroll_offset];
    rewrite Hlh; cbn [bind];
    eexists; (split; [reflexivity|]); (split; [reflexivity|]);
    change (TextField._get_num_paragraphs (with_scroll_offset _ _))
      with (TextField._get_num_paragraphs self);
    lia.
Qed.

Lemma _update_scroll_in_range_witness :
  let self := with_scroll_offset (narrow_field [mkLine ["ab"; "c"]] (mkCursor 0 1 0)) 7 in
  exists v o : Z,
    TextField.visible_lines self = Ok v
    /\ TextField._update_scroll self = Ok (with_scroll_offset self o)
    /\ 0 <= o <= Z.max 0 (TextField._get_num_paragraphs self - v).
Proof.
  intros self. apply (_update_scroll_in_range self). simpl; lia.
Defined.

(** X25.  After [_update_scroll] the cursor's row is one of the rows
    shown, as soon as that row is a row of the document: the new offset
    is at most the row, and the row is less than the offset plus the
    visible rows. *)
Theorem _update_scroll_keeps_cursor_visible (self : TextField) :
  line_height self <> 0 ->
  0 <= TextField._get_view_line_pos self (cursor self)
    < TextField._get_num_paragraphs self ->
  exists (self' : TextField) (v : Z),
    TextField._update_scroll self = Ok self'
    /\ TextField.visible_lines self' = Ok v
    /\ cursor_visible self' v.
Proof. exact (_update_scroll_shows_cursor self). Qed.

Lemma _update_scroll_keeps_cursor_visible_witness :
  let self :=
    narrow_field [mkLine ["ab"; "c"]; mkLine ["d"]] (mkCursor 1 0 0) in
  exists (self' : TextField) (v : Z),
    TextField._update_scroll self = Ok self'
    /\ TextField.visible_lines self' = Ok v
    /\ cursor_visible self' v.
Proof.
  intros self. apply (_update_scroll_keeps_cursor_visible self).
  - simpl; lia.
  - vm_compute. split; [discriminate | reflexivity].
Defined.

(** X26.  [_update_scroll] does not scroll without need: when the cursor's
    row is already shown and the offset is already within its bounds, the
    field is unchanged. *)
Theorem _update_scroll_stable (self : TextField) (v : Z) :
  TextField.visible_lines self = Ok v ->
  cursor_visible self v ->
  scroll_in_range self v ->
  TextField._update_scroll self = Ok self.
Proof.
  unfold cursor_visible, scroll_in_range.
  intros Hv Hvis Hrange. cbv zeta in Hvis.
  unfold TextField._update_scroll. rewrite Hv. cbn [bind].
  replace (TextField._get_view_line_pos self (cursor self)
           >=? scroll_offset self + v) with false
    by (symmetry; rewrite Z.geb_leb; apply Z.leb_gt; lia).
  replace (TextField._get_view_line_pos self (cursor self) <? scroll_offset self)
    with false by (symmetry; apply Z.ltb_ge; lia).
  unfold TextField._clamp_scroll. rewrite Hv. cbn [bind].
  replace (Z.max 0 (Z.min (scroll_offset self)
                      (Z.max 0 (TextField._get_num_paragraphs self - v))))
    with (scroll_offset self) by lia.
  rewrite with_scroll_offset_same. reflexivity.
Qed.

Lemma _update_scroll_stable_witness :
  let self := narrow_field [mkLine ["ab"; "c"]] (mkCursor 0 0 1) in
  TextField._update_scroll self = Ok self.
Proof.
  intros self. apply (_update_scroll_stable self 1).
  - reflexivity.
  - unfold cursor_visible. vm_compute. split; [discriminate | reflexivity].
  - unfold scroll_in_range. vm_compute. split; discriminate.
Defined.

(** X27.  After [_move_my_cursor] by one character on a valid document
    with a valid cursor, the call has not raised and the cursor's row is
    one of the rows shown, whatever the scroll offset was before. *)
Theorem _move_my_cursor_keeps_cursor_visible (self : TextField) (direction : Z)
    (jump_words : bool) :
  valid_document self ->
  valid_cursor self (cursor self) ->
  direction = 1 \/ direction = -1 ->
  line_height self <> 0 ->
  exists (self' : TextField) (v : Z),
    TextField._move_my_cursor self direction jump_words = Ok self'
    /\ TextField.visible_lines self' = Ok v
    /\ cursor_visible self' v.
Proof. exact (_move_my_cursor_shows_cursor self direction jump_words). Qed.

Lemma _move_my_cursor_keeps_cursor_visible_witness :
  let self := narrow_field [mkLine ["ab"; "c"]; mkLine ["d"]] (mkCursor 0 0 2) in
  exists (self' : TextField) (v : Z),
    TextField._move_my_cursor self 1 false = Ok self'
    /\ TextField.visible_lines self' = Ok v
    /\ cursor_visible self' v.
Proof.
  intros self. apply (_move_my_cursor_keeps_cursor_visible self 1 false).
  - repeat constructor; discriminate.
  - exists (mkLine ["ab"; "c"]), "ab".
    repeat split; try reflexivity; vm_compute; discriminate.
  - left; reflexivity.
  - simpl; lia.
Defined.

(** X28.  After [_insert_text] with the cursor on a paragraph of the
    document, the call has not raised and the cursor's row is one of the
    rows shown, provided the edited line wraps to at least one
    paragraph. *)
Theorem _insert_text_keeps_cursor_visible (self : TextField) (char : string)
    (l : Line) (p : string) :
  let c := cursor self in
  let edited :=
    mkLine (replace_nth (Z.to_nat (paragraph_index c))
              (str_upto p (char_index c) ++ char ++ str_from p (char_index c))
              (paragraphs l)) in
  0 <= line_index c ->
  nth_error (text self) (Z.to_nat (line_index c)) = Some l ->
  0 <= paragraph_index c ->
  nth_error (paragraphs l) (Z.to_nat (paragraph_index c)) = Some p ->
  line_height self <> 0 ->
  paragraphs
    (Line.auto_wrap edited (font self) (rect_width self - 2 * padding self))
  <> [] ->
  exists (self' : TextField) (v : Z),
    TextField._insert_text self char = Ok self'
    /\ TextField.visible_lines self' = Ok v
    /\ cursor_visible self' v.
Proof. exact (_insert_text_shows_cursor self char l p). Qed.

Lemma _insert_text_keeps_cursor_visible_witness :
  let self := narrow_field [mkLine ["abc"; "de"]] (mkCursor 0 1 2) in
  exists (self' : TextField) (v : Z),
    TextField._insert_text self "f" = Ok self'
    /\ TextField.visible_lines self' = Ok v
    /\ cursor_visible self' v.
Proof.
  intros self.
  apply (_insert_text_keeps_cursor_visible self "f" (mkLine ["abc"; "de"]) "de").
  - simpl; lia.
  - reflexivity.
  - simpl; lia.
  - reflexivity.
  - simpl; lia.
  - vm_compute. discriminate.
Defined.

(** ** Jumping over words *)

Lemma first_space_bound (s : string) :
  forall i : nat, first_space s = Some i -> (i < String.length s)%nat.
Proof.
  induction s as [|c s IH]; intros i H; simpl in H; [discriminate|].
  destruct (is_space c).
  - injection H as <-. simpl. lia.
  - destruct (first_space s) as [j|]; [|discriminate].
    injection H as <-. specialize (IH j eq_refl). simpl. lia.
Qed.

Lemma last_space_bound (s : string) :
  forall i : nat, last_space s = Some i -> (i < String.length s)%nat.
Proof.
  induction s as [|c s IH]; intros i H; simpl in H; [discriminate|].
  destruct (last_space s) as [j|].
  - injection H as <-. specialize (IH j eq_refl). simpl. lia.
  - destruct (is_space c); [|discriminate]. injection H as <-. simpl. lia.
Qed.

Lemma length_str_drop (n : nat) :
  forall s : string,
    String.length (str_drop n s) = (String.length s - n)%nat.
Proof.
  induction n as [|n IH]; intros [|c s]; simpl; try reflexivity. apply IH.
Qed.

Lemma length_str_take (n : nat) :
  forall s : string,
    String.length (str_take n s) = Nat.min n (String.length s).
Proof.
  induction n as [|n IH]; intros [|c s]; simpl; try reflexivity.
  rewrite IH. reflexivity.
Qed.

Lemma find_space_range (s : string) (start : Z) :
  0 <= start <= len s ->
  find_space s start = -1 \/ start <= find_space s start < len s.
Proof.
  intros H. unfold find_space.
  rewrite slice_bound_in_range by exact H.
  destruct (first_space (str_drop (Z.to_nat start) s)) as [i|] eqn:E;
    [right | left; reflexivity].
  apply first_space_bound in E. rewrite length_str_drop in E.
  unfold len in *. lia.
Qed.

Lemma rfind_space_range (s : string) (stop : Z) :
  0 <= stop <= len s ->
  rfind_space s stop = -1 \/ 0 <= rfind_space s stop < stop.
Proof.
  intros H. unfold rfind_space.
  rewrite slice_bound_in_range by exact H.
  destruct (last_space (str_take (Z.to_nat stop) s)) as [i|] eqn:E;
    [right | left; reflexivity].
  apply last_space_bound in E. rewrite length_str_take in E.
  unfold len in *. lia.
Qed.

(** X29.  With [jump_words] set, [_next_char_index] always makes
    progress from a character index of the paragraph.  Forward, the answer
    is larger than the index and at most one past the end, and it is one
    past the end exactly from the end; backward, it is smaller than the
    index and at least -1, and it is -1 exactly from the start.  The
    direction 0 raises [ValueError]. *)
Theorem _next_char_index_word_jump (paragraph : string) (char_index direction : Z) :
  0 <= char_index <= len paragraph ->
  (0 < direction ->
   exists r : Z,
     TextField._next_char_index paragraph char_index direction true = Ok r
     /\ char_index < r <= len paragraph + 1
     /\ (r = len paragraph + 1 <-> char_index = len paragraph))
  /\ (direction < 0 ->
      exists r : Z,
        TextField._next_char_index paragraph char_index direction true = Ok r
        /\ -1 <= r < char_index
        /\ (r = -1 <-> char_index = 0))
  /\ (direction = 0 ->
      TextField._next_char_index paragraph char_index direction true
      = Raise ValueError).
Proof.
  intros Hci. unfold TextField._next_char_index. cbn [negb].
  split; [|split].
  - intros Hd.
    replace (direction >? 0) with true
      by (symmetry; rewrite Z.gtb_ltb; apply Z.ltb_lt; lia).
    destruct (char_index =? len paragraph) eqn:E.
    + apply Z.eqb_eq in E. eexists. split; [reflexivity|]. lia.
    + apply Z.eqb_neq in E.
      destruct (find_space_range paragraph (char_index + 1) ltac:(lia))
        as [Hnone | Hfound].
      * rewrite Hnone. cbn. eexists. split; [reflexivity|]. lia.
      * destruct (find_space paragraph (char_index + 1) =? -1) eqn:E1;
          [apply Z.eqb_eq in E1; lia|].
        eexists. split; [reflexivity|]. lia.
  - intros Hd.
    replace (direction >? 0) with false
      by (symmetry; rewrite Z.gtb_ltb; apply Z.ltb_ge; lia).
    replace (direction <? 0) with true by (symmetry; apply Z.ltb_lt; lia).
    destruct (char_index =? 0) eqn:E.
    + apply Z.eqb_eq in E. eexists. split; [reflexivity|]. lia.
    + apply Z.eqb_neq in E.
      destruct (rfind_space_range paragraph char_index Hci) as [Hnone | Hfound].
      * rewrite Hnone. cbn. eexists. split; [reflexivity|]. lia.
      * destruct (rfind_space paragraph char_index =? -1) eqn:E1;
          [apply Z.eqb_eq in E1; lia|].
        eexists. split; [reflexivity|]. lia.
  - intros ->. reflexivity.
Qed.

Lemma _next_char_index_word_jump_witness :
  (0 < 1 ->
   exists r : Z,
     TextField._next_char_index "ab cd" 1 1 true = Ok r
     /\ 1 < r <= len "ab cd" + 1
     /\ (r = len "ab cd" + 1 <-> 1 = len "ab cd"))
  /\ (1 < 0 ->
      exists r : Z,
        TextField._next_char_index "ab cd" 1 1 true = Ok r
        /\ -1 <= r < 1
        /\ (r = -1 <-> 1 = 0))
  /\ (1 = 0 ->
      TextField._next_char_index "ab cd" 1 1 true = Raise ValueError).
Proof.
  apply (_next_char_index_word_jump "ab cd" 1 1).
  vm_compute. split; discriminate.
Defined.

(** ** Inserting text *)

(** X30.  With the cursor on a paragraph of the document and a line height
    that is not zero, [_insert_text] never raises.  Afterwards every line
    is the wrapped form of what it was, the cursor's line with the text
    spliced into the cursor's paragraph at the character index; the number
    of lines and the cursor's line index are unchanged and the selection
    is cleared. *)
Theorem _insert_text_succeeds (self : TextField) (char : string)
    (l : Line) (p : string) :
  let c := cursor self in
  let edited :=
    mkLine (replace_nth (Z.to_nat (paragraph_index c))
              (str_upto p (char_index c) ++ char ++ str_from p (char_index c))
              (paragraphs l)) in
  0 <= line_index c ->
  nth_error (text self) (Z.to_nat (line_index c)) = Some l ->
  0 <= paragraph_index c ->
  nth_error (paragraphs l) (Z.to_nat (paragraph_index c)) = Some p ->
  line_height self <> 0 ->
  exists self' : TextField,
    TextField._insert_text self char = Ok self'
    /\ text self'
       = map (fun x => Line.auto_wrap x (font self)
                         (rect_width self - 2 * padding self))
           (replace_nth (Z.to_nat (line_index c)) edited (text self))
    /\ llen (text self') = llen (text self)
    /\ line_index (cursor self') = line_index c
    /\ selection_start self' = None.
Proof.
  intros c edited Hli Hl Hpi Hp Hlh.
  pose proof (nth_error_llen _ _ _ Hli Hl) as Hlilt.
  pose proof (nth_error_llen _ _ _ Hpi Hp) as Hpilt.
  unfold TextField._insert_text, TextField._get_paragraph,
    TextField._get_paragraph_at.
  fold c.
  rewrite (subscript_nth _ _ _ Hli Hl). cbn [bind].
  rewrite (subscript_nth _ _ _ Hpi Hp). cbn [bind].
  rewrite (assign_nth (paragraphs l)) by lia. cbn [bind]. fold edited.
  rewrite (assign_nth (text self)) by lia. cbn [bind].
  set (text1 := replace_nth (Z.to_nat (line_index c)) edited (text self)).
  unfold TextField._wrap_text.
  cbn [rect_width padding font text cursor with_text].
  fold c.
  set (mw := rect_width self - 2 * padding self) in *.
  pose proof (wrap_lines_lines (font self) mw text1 0 c) as Hlines.
  assert (Hsame : line_index (snd (TextField.wrap_lines (font self) mw text1 0 c))
                  = line_index c).
  { destruct (nth_error_in_range text1 (line_index c)) as [e He].
    - unfold text1, llen in *. rewrite length_replace_nth. lia.
    - rewrite (wrap_lines_cursor (font self) mw (Z.to_nat (line_index c))
                 text1 0 c e ltac:(lia) He).
      unfold Line.auto_wrap_and_norm_cursor.
      destruct (Line.get_paragraph_char_index _ _). reflexivity. }
  destruct (TextField.wrap_lines (font self) mw text1 0 c) as [lines c'].
  cbn [fst snd] in Hlines, Hsame. subst lines.
  match goal with |- context [TextField._update_scroll ?s] =>
    destruct (_update_scroll_result s Hlh) as [o Ho]; rewrite Ho end.
  eexists. split; [reflexivity|].
  cbn [text cursor selection_start with_scroll_offset with_selection_start
       with_cursor with_text line_index].
  repeat split; try assumption.
  unfold llen, text1. rewrite length_map, length_replace_nth. reflexivity.
Qed.

Lemma _insert_text_succeeds_witness :
  let self := narrow_field [mkLine ["abc"; "de"]; mkLine [""]] (mkCursor 0 1 2) in
  exists self' : TextField,
    TextField._insert_text self "f" = Ok self'
    /\ text self'
       = map (fun x => Line.auto_wrap x (font self)
                         (rect_width self - 2 * padding self))
           (replace_nth (Z.to_nat (line_index (cursor self)))
              (mkLine (replace_nth (Z.to_nat (paragraph_index (cursor self)))
                         (str_upto "de" (char_index (cursor self)) ++ "f"
                          ++ str_from "de" (char_index (cursor self)))
                         (paragraphs (mkLine ["abc"; "de"]))))
              (text self))
    /\ llen (text self') = llen (text self)
    /\ line_index (cursor self') = line_index (cursor self)
    /\ selection_start self' = None.
Proof.
  intros self.
  apply (_insert_text_succeeds self "f" (mkLine ["abc"; "de"]) "de").
  - simpl; lia.
  - reflexivity.
  - simpl; lia.
  - reflexivity.
  - simpl; lia.
Defined.
